(** * Name reconciliation and database integrity checks

    A shallow embedding of the name-matching classes of [qual_ctrl.py]
    ([NameConverter], [Name], [AbbreviatedNameWizard],
    [MostSimilarNameWizard], [name_edit_distances]) and of the
    [DBIntegrityCheck] class of [integrity.py], with the helpers of
    [data_utils.py], [bigdataball.py] and [db.py] they call or are called
    by, followed by the properties established about them.

    Conventions of the embedding:
    - a Python [str] is a [string]; each character is one code point below
      256, so the whitespace class is the part of Python's [str.isspace]
      that lies in that range;
    - a Python value that may be [None] is an [option];
    - a call that may raise returns a [result]; an exception is recorded by
      the name of its class and its arguments;
    - a method that mutates its object takes the object and returns the new
      one next to its result. *)

From Stdlib Require Import String Ascii List ZArith Lia Bool.
From stdpp Require Import gmap gmultiset strings list sorting.

Local Open Scope string_scope.
Local Open Scope list_scope.

(** ** Python values, exceptions and sequences *)

Module Py.

Record exn := Exn { exn_class : string; exn_args : list string }.

Definition AttributeError : exn := Exn "AttributeError" [].
Definition IndexError : exn := Exn "IndexError" [].
Definition TypeError : exn := Exn "TypeError" [].
(** [dfm.PMissingError(func, name, ...)] *)
Definition PMissingError (args : list string) : exn := Exn "PMissingError" args.

Inductive result (A : Type) : Type :=
| Return (a : A)
| Raise (e : exn).
Arguments Return {A} a.
Arguments Raise {A} e.

Definition bind {A B} (m : result A) (f : A → result B) : result B :=
  match m with
  | Return a => f a
  | Raise e => Raise e
  end.

(** [try: body  except: handler] with a bare [except]. *)
Definition try_except {A} (body : result A) (handler : exn → result A) : result A :=
  match body with
  | Return a => Return a
  | Raise e => handler e
  end.

(** [x.attr] or [x[i]] or [re.match(x)] where [x] may be [None]. *)
Definition not_none {A} (x : option A) (e : exn) : result A :=
  match x with
  | Some a => Return a
  | None => Raise e
  end.

(** [l[0]] on a list. *)
Definition item0 {A} (l : list A) : result A :=
  match l with
  | x :: _ => Return x
  | [] => Raise IndexError
  end.

(** [s[0]] on a string. *)
Definition str_item0 (s : string) : result ascii :=
  match s with
  | String c _ => Return c
  | EmptyString => Raise IndexError
  end.

(** [s[n:]] on a string; a slice never raises. *)
Fixpoint str_from (n : nat) (s : string) : string :=
  match n, s with
  | O, _ => s
  | S n', String _ s' => str_from n' s'
  | S _, EmptyString => EmptyString
  end.

(** [str.isspace] of one character, for code points below 256; the
    class [\s] of [re] on a [str] pattern is the same set. *)
Definition isspace (c : ascii) : bool :=
  let n := N_of_ascii c in
  ((9 <=? n) && (n <=? 13) || (28 <=? n) && (n <=? 32) || (n =? 133) || (n =? 160))%N.

Fixpoint lstrip (s : string) : string :=
  match s with
  | String c s' => if isspace c then lstrip s' else s
  | EmptyString => EmptyString
  end.

Fixpoint rstrip (s : string) : string :=
  match s with
  | EmptyString => EmptyString
  | String c s' =>
      match rstrip s' with
      | EmptyString => if isspace c then EmptyString else String c EmptyString
      | r => String c r
      end
  end.

(** [s.strip()] *)
Definition strip (s : string) : string := rstrip (lstrip s).

(** [c in s] for a one-character [c]. *)
Fixpoint contains (c : ascii) (s : string) : bool :=
  match s with
  | EmptyString => false
  | String d s' => Ascii.eqb c d || contains c s'
  end.

(** [s.replace(c, '')] for a one-character [c]. *)
Fixpoint remove_char (c : ascii) (s : string) : string :=
  match s with
  | EmptyString => EmptyString
  | String d s' => if Ascii.eqb c d then remove_char c s' else String d (remove_char c s')
  end.

(** [s.split(c)] for a one-character separator [c]. *)
Fixpoint split (c : ascii) (s : string) : list string :=
  match s with
  | EmptyString => [EmptyString]
  | String d s' =>
      if Ascii.eqb c d then EmptyString :: split c s'
      else match split c s' with
           | w :: ws => String d w :: ws
           | [] => [String d EmptyString]
           end
  end.

(** Stable sort by a key, as [list.sort(key=...)]: insertion from the
    right, an element going before the first one whose key is not
    smaller. *)
Section Sort.
Context {A : Type} (le : A → A → bool).

Fixpoint insert_sorted (x : A) (l : list A) : list A :=
  match l with
  | [] => [x]
  | y :: l' => if le x y then x :: y :: l' else y :: insert_sorted x l'
  end.

Definition sort_stable (l : list A) : list A := foldr insert_sorted [] l.
End Sort.

(** [Series.unique().tolist()]: the distinct values in order of first
    appearance. *)
Section Unique.
Context {A : Type} `{EqDecision A}.

Fixpoint unique_from (seen : list A) (l : list A) : list A :=
  match l with
  | [] => []
  | x :: l' =>
      if bool_decide (x ∈ seen) then unique_from seen l'
      else x :: unique_from (x :: seen) l'
  end.

Definition unique (l : list A) : list A := unique_from [] l.
End Unique.

End Py.

Import Py.

#[global] Instance result_ret : MRet result := @Return.
#[global] Instance result_bind : MBind result := fun A B f m => Py.bind m f.

(** ** The regular expressions of [re] that the name classes use

    The matcher is the backtracking search of [re]: alternatives are tried
    left to right, a greedy repetition takes the longest run first, a lazy
    one the shortest, and the first complete match is the result. *)

Module Re.

Inductive regex : Type :=
| Bos                               (* ^ *)
| Eos                               (* $ *)
| Set_ (p : ascii → bool)           (* a literal, a class, or . *)
| Cat (r1 r2 : regex)
| Alt (r1 r2 : regex)               (* r1|r2 *)
| Opt (r : regex)                   (* r? *)
| Plus (p : ascii → bool)           (* [..]+ *)
| PlusLazy (p : ascii → bool)       (* [..]+? *)
| Group (name : string) (r : regex) (* (?P<name>r) *).

Abbreviation groups := (gmap string string).

Section Repeat.
Context {R : Type} (p : ascii → bool) (k : nat → string → option R).

Fixpoint plus_greedy (pos : nat) (s : string) : option R :=
  match s with
  | EmptyString => None
  | String c s' =>
      if p c then
        match plus_greedy (S pos) s' with
        | Some m => Some m
        | None => k (S pos) s'
        end
      else None
  end.

Fixpoint plus_lazy (pos : nat) (s : string) : option R :=
  match s with
  | EmptyString => None
  | String c s' =>
      if p c then
        match k (S pos) s' with
        | Some m => Some m
        | None => plus_lazy (S pos) s'
        end
      else None
  end.
End Repeat.

Definition newline : ascii := "010"%char.

Fixpoint exec (r : regex) (pos : nat) (s : string) (g : groups)
    (k : nat → string → groups → option groups) {struct r} : option groups :=
  match r with
  | Bos => if Nat.eqb pos 0 then k pos s g else None
  | Eos =>
      match s with
      | EmptyString => k pos s g
      | String c EmptyString => if Ascii.eqb c newline then k pos s g else None
      | _ => None
      end
  | Set_ p =>
      match s with
      | String c s' => if p c then k (S pos) s' g else None
      | EmptyString => None
      end
  | Cat r1 r2 => exec r1 pos s g (fun pos' s' g' => exec r2 pos' s' g' k)
  | Alt r1 r2 =>
      match exec r1 pos s g k with
      | Some m => Some m
      | None => exec r2 pos s g k
      end
  | Opt r' =>
      match exec r' pos s g k with
      | Some m => Some m
      | None => k pos s g
      end
  | Plus p => plus_greedy p (fun pos' s' => k pos' s' g) pos s
  | PlusLazy p => plus_lazy p (fun pos' s' => k pos' s' g) pos s
  | Group name r' =>
      exec r' pos s g
        (fun pos' s' g' => k pos' s' (<[name := substring 0 (pos' - pos) s]> g'))
  end.

(** [rgx.match(s)]: the groups of the match at the start of [s], or
    [None]. *)
Definition match_ (r : regex) (s : string) : option groups :=
  exec r 0 s ∅ (fun _ _ g => Some g).

(** [m.group(name)]: [None] for a group that took no part in the match. *)
Definition group (m : groups) (name : string) : option string := m !! name.

(* character classes *)
Definition lit (c : ascii) : regex := Set_ (Ascii.eqb c).
Definition dot (c : ascii) : bool := negb (Ascii.eqb c newline).
Definition upper (c : ascii) : bool :=
  ((65 <=? N_of_ascii c) && (N_of_ascii c <=? 90))%N.
Definition not_space_comma (c : ascii) : bool :=
  negb (isspace c) && negb (Ascii.eqb c ",").
Definition J_or_S (c : ascii) : bool := Ascii.eqb c "J" || Ascii.eqb c "S".

(** [^(?P<first>.+?)\s(?P<last>[^\s,]+)(,?\s(?P<suffix>[JS]r\.?|III?|IV|V))?$]
    The group without a name is read by no caller, so only the three
    named groups are recorded. *)
Definition rgx_suffix : regex :=
  Alt (Cat (Set_ J_or_S) (Cat (lit "r") (Opt (lit "."))))
 (Alt (Cat (lit "I") (Cat (lit "I") (Opt (lit "I"))))
 (Alt (Cat (lit "I") (lit "V"))
      (lit "V"))).

(** [\s(?P<last>[^\s,]+)(,?\s(?P<suffix>...))?$], what follows the first
    name. *)
Definition rgx_last_suffix : regex :=
  Cat (Set_ isspace)
 (Cat (Group "last" (Plus not_space_comma))
 (Cat (Opt (Cat (Opt (lit ",")) (Cat (Set_ isspace) (Group "suffix" rgx_suffix))))
      Eos)).

Definition rgx_full_name : regex :=
  Cat Bos (Cat (Group "first" (PlusLazy dot)) rgx_last_suffix).

(** [[A-Z]\.[A-Z]\.] *)
Definition rgx_abbr_periods : regex :=
  Cat (Set_ upper) (Cat (lit ".") (Cat (Set_ upper) (lit "."))).

(** [[A-Z][A-Z]] *)
Definition rgx_abbr_no_periods : regex := Cat (Set_ upper) (Set_ upper).

End Re.

(** ** [qual_ctrl.py] *)

Module Name.

Record t := Make {
  full_name : string;
  first : option string;
  last : option string;
  suffix : option string
}.

(** [Name.__init__]: when the pattern does not match, [m] is [None] and
    [m.group] raises [AttributeError]. *)
Definition init (full_name : string) : result t :=
  let full_name := strip full_name in
  m ← not_none (Re.match_ Re.rgx_full_name full_name) AttributeError;
  Return (Make full_name (Re.group m "first") (Re.group m "last") (Re.group m "suffix")).

End Name.

(** [nltk.metrics.distance.edit_distance(s1, s2)] with its default
    arguments (substitution cost 1, no transpositions): the table
    [lev[i][j]] is filled row by row and [lev[len1][len2]] is returned. *)
Module Nltk.

(** The cells [lev[i][1..]] from the row above ([prev] starts at
    [lev[i-1][j-1]]) and the cell to the left. *)
Fixpoint edit_row (c1 : ascii) (s2 : string) (prev : list nat) (left : nat) : list nat :=
  match s2, prev with
  | String c2 s2', diag :: (up :: _) as prev' =>
      let v := Nat.min (up + 1)
                 (Nat.min (left + 1) (diag + (if Ascii.eqb c1 c2 then 0 else 1))) in
      v :: edit_row c1 s2' prev' v
  | _, _ => []
  end.

Fixpoint edit_rows (s1 s2 : string) (i : nat) (prev : list nat) : list nat :=
  match s1 with
  | EmptyString => prev
  | String c1 s1' => edit_rows s1' s2 (S i) (S i :: edit_row c1 s2 prev (S i))
  end.

Definition edit_distance (s1 s2 : string) : nat :=
  default 0 (last (edit_rows s1 s2 0 (seq 0 (S (String.length s2))))).

End Nltk.

Module NameConverter.

Record t := Make {
  known_pairs : gmap string string;
  known_missing : gset string;
  known : gset string;
  unhandled_names : gset string;
  raise_exc : bool
}.

(** [__init__], from what [load_same_name_pairs], [load_known_missing],
    [load_known_names] and [load_all_team_representations] return. *)
Definition init (pairs : gmap string string) (missing names : gset string)
    (teams : list string) (excl_teams raise_exc : bool) : t :=
  Make pairs missing
       (if excl_teams then foldl (fun k t => {[t]} ∪ k) names teams else names)
       ∅ raise_exc.

Definition clean_msg (name : string) : string :=
  name +:+ " not found in data, associated pairs, or known to be missing.".

(** [clean]; a call that falls off the end returns [None]. *)
Definition clean (self : t) (name : string) : t * result (option string) :=
  match known_pairs self !! name with
  | Some new => (self, Return (Some new))
  | None =>
      if bool_decide (name ∈ known_missing self) || bool_decide (name ∈ known self)
      then (self, Return (Some name))
      else
        let self' := Make (known_pairs self) (known_missing self) (known self)
                          ({[name]} ∪ unhandled_names self) (raise_exc self) in
        if raise_exc self'
        then (self', Raise (PMissingError ["clean"; name; clean_msg name]))
        else (self', Return None)
  end.

Definition is_problematic (self : t) (name : string) : t * result (bool * string) :=
  match known_pairs self !! name with
  | Some new => (self, Return (true, "Should be " +:+ new +:+ "."))
  | None =>
      if bool_decide (name ∈ known_missing self)
      then (self, Return (false, "Known to be missing from PStats."))
      else if bool_decide (name ∈ known self)
      then (self, Return (false, "In PStats."))
      else (self, Return (true,
             "Not in PStats, no associated name, and not known to be missing."))
  end.

Definition some_names_missing (self : t) : bool :=
  negb (Nat.eqb (size (unhandled_names self)) 0).

End NameConverter.

Module AliasWizard.

(** The sheet of (name, nickname) rows read at class level. *)
Definition t := list (string * string).

Definition get_aliases (df : t) (name : string) : option (list string) :=
  if bool_decide (name ∈ df.*1)
  then Some (unique (filter (fun r => r.1 = name) df).*2)
  else if bool_decide (name ∈ df.*2)
  then Some (unique (filter (fun r => r.2 = name) df).*1)
  else None.

Definition has_aliases (df : t) (name : string) : bool :=
  bool_decide (name ∈ df.*1) || bool_decide (name ∈ df.*2).

End AliasWizard.

(** [name_edit_distances]: the pairs in the order of [other_names], then
    sorted by distance with the stable [list.sort]. *)
Definition name_edit_distances (ref_name : string) (other_names : list string)
    : list (string * nat) :=
  sort_stable (fun x y => Nat.leb x.2 y.2)
    (map (fun name => (name, Nltk.edit_distance name ref_name)) other_names).

(** [create_name_objects]: [s] is the list built so far. *)
Fixpoint create_name_objects_from (s : list Name.t) (names : list string)
    : result (list Name.t) :=
  match names with
  | [] => Return s
  | name :: rest =>
      s' ← try_except (n ← Name.init name; Return (s ++ [n])) (fun _ => Return s);
      create_name_objects_from s' rest
  end.

Definition create_name_objects (names : list string) : result (list Name.t) :=
  create_name_objects_from [] names.

Module AbbreviatedNameWizard.

Record t := Make {
  raw_names : list string;
  name_objs : list Name.t;
  used_levenshtein : gmap string string
}.

Definition init (universe : list string) : result t :=
  objs ← create_name_objects universe;
  Return (Make universe objs ∅).

Definition get_first_init_last_name (abbrev : string) : result (ascii * string) :=
  first_initial ← str_item0 abbrev;
  Return (first_initial, str_from 3 abbrev).

(** The [for] loop of [full_name]: [Some] is its [return], [None] is
    falling out of the loop. *)
Fixpoint scan (first_init : ascii) (last_name : string) (objs : list Name.t)
    : result (option string) :=
  match objs with
  | [] => Return None
  | name :: rest =>
      if bool_decide (Name.last name ≠ Some last_name)
      then scan first_init last_name rest
      else
        f ← not_none (Name.first name) TypeError;
        c ← str_item0 f;
        if Ascii.eqb c first_init then Return (Some (Name.full_name name))
        else scan first_init last_name rest
  end.

Definition full_name (self : t) (abbrev : string) : t * result string :=
  match
    ( '(first_init, last_name) ← get_first_init_last_name abbrev;
      scan first_init last_name (name_objs self) )
  with
  | Raise e => (self, Raise e)
  | Return (Some found) => (self, Return found)
  | Return None =>
      match item0 (name_edit_distances abbrev (raw_names self)) with
      | Raise e => (self, Raise e)
      | Return best =>
          let result := best.1 in
          (Make (raw_names self) (name_objs self)
                (<[abbrev := result]> (used_levenshtein self)),
           Return result)
      end
  end.

Definition used_levenshtein_count (self : t) : nat := size (used_levenshtein self).

End AbbreviatedNameWizard.

Module MostSimilarNameWizard.

Record t := Make {
  universe : list string;
  alias_wizard : AliasWizard.t
}.

(** [__break_down_name_components]: the attributes [first], [last] and
    [suffix] it assigns, which [solve] reads back in the same call. *)
Definition break_down_name_components (full_name : string)
    : result (option string * option string * option string) :=
  m ← not_none (Re.match_ Re.rgx_full_name full_name) AttributeError;
  Return (Re.group m "first", Re.group m "last", Re.group m "suffix").

Definition is_match (r : Re.regex) (s : string) : bool :=
  match Re.match_ r s with Some _ => true | None => false end.

Definition in_universe (self : t) (name : string) : bool :=
  bool_decide (name ∈ universe self).

(** The first of [candidates] found in the universe, as the loops
    [for n in ...: if new_name in self.universe: return new_name]. *)
Definition first_in_universe (self : t) (candidates : list string) : option string :=
  list_find (fun n => n ∈ universe self) candidates ≫= fun r => Some r.2.

(** [if new_name in self.universe: return new_name] *)
Definition try_name (self : t) (new_name : string) : option string :=
  if in_universe self new_name then Some new_name else None.

(** A block that may [return]: [Some] is its return value, [None] goes
    on with the rest of the body. *)
Definition returning (block : option string) (rest : result string) : result string :=
  match block with
  | Some r => Return r
  | None => rest
  end.

Definition missing (full_name : string) : exn := PMissingError ["solve"; full_name].

Definition solve (self : t) (full_name : string) : result string :=
  if in_universe self full_name then Return full_name else
  '(first_, last_, suffix) ← break_down_name_components full_name;
  first ← not_none first_ TypeError;
  (* abbreviated first names w/out periods (e.g. CJ) *)
  if is_match Re.rgx_abbr_no_periods first then
    c0 ← not_none (String.get 0 first) IndexError;
    c1 ← not_none (String.get 1 first) IndexError;
    last ← not_none last_ TypeError;
    let new_name := String c0 "." +:+ String c1 "." +:+ " " +:+ last in
    if in_universe self new_name then Return new_name
    else Raise (missing full_name)
  (* abbreviated first names w/ periods (e.g. C.J.) *)
  else if is_match Re.rgx_abbr_periods first then
    last ← not_none last_ TypeError;
    let new_name := remove_char "." first +:+ " " +:+ last in
    if in_universe self new_name then Return new_name
    else Raise (missing full_name)
  (* remove suffix if player has one *)
  else if bool_decide (suffix ≠ None) then
    last ← not_none last_ TypeError;
    let new_name := first +:+ " " +:+ last in
    if in_universe self new_name then Return new_name
    else Raise (missing full_name)
  else
    last ← not_none last_ TypeError;
    (* apostrophes in first or last names *)
    returning
      (if contains "'" first
       then try_name self (remove_char "'" first +:+ " " +:+ last) else None) $
    returning
      (if contains "'" last
       then try_name self (first +:+ " " +:+ remove_char "'" last) else None) $
    (* compound surname with hyphen *)
    returning
      (if contains "-" last
       then first_in_universe self (map (fun n => first +:+ " " +:+ n) (split "-" last))
       else None) $
    (* first name alias *)
    returning
      (match AliasWizard.get_aliases (alias_wizard self) first with
       | Some aliases =>
           first_in_universe self (map (fun alias => alias +:+ " " +:+ last) aliases)
       | None => None
       end) $
    Raise (missing full_name).

End MostSimilarNameWizard.

(** ** [data_utils.py] *)

Module DataUtils.

(** [sequences_equal(a, b, order)]: [np.array_equal] when [order] is set,
    else equality of the two [collections.Counter] multisets. *)
Definition sequences_equal (a b : list string) (order : bool) : bool :=
  if order then bool_decide (a = b)
  else bool_decide ((list_to_set_disj a : gmultiset string) = list_to_set_disj b).

(** [contains_elements(a, b)]: both made sets, then
    [len(list(a.intersection(b))) == len(b)]. *)
Definition contains_elements (a b : list string) : bool :=
  let a : gset string := list_to_set a in
  let b : gset string := list_to_set b in
  let section := elements (a ∩ b) in
  bool_decide (length section = size b).

(** [dicts_equal(a, b)]: the key sets compared as [Counter]s, then the
    values key by key; the keys are visited in the order of [elements]. *)
Definition dicts_equal {V : Type} `{EqDecision V} (a b : gmap string V) : bool :=
  let a_keys := elements (dom a) in
  let b_keys := elements (dom b) in
  if negb (sequences_equal a_keys b_keys false) then false
  else forallb (fun key => bool_decide (a !! key = b !! key)) a_keys.

(** [common_elements(x)]: [x[0]] raises on an empty list. *)
Definition common_elements (x : list (list string)) : result (gset string) :=
  x0 ← item0 x;
  let result : gset string := list_to_set x0 in
  if bool_decide (length x = 1) then Return result
  else Return (foldl (fun result seq => result ∩ list_to_set seq) result (drop 1 x)).

(** [all_elements_equal(q)]: [q.count(q[0]) == len(q)]. *)
Definition all_elements_equal (q : list string) : result bool :=
  q0 ← item0 q;
  Return (bool_decide (length (filter (fun x => x = q0) q) = length q)).

End DataUtils.

(** ** [db.py] *)

Module Db.

(** [clean_str_for_sql(s)]: [s.replace("'", "''")]. *)
Fixpoint clean_str_for_sql (s : string) : string :=
  match s with
  | EmptyString => EmptyString
  | String c s' =>
      if Ascii.eqb c "'" then String "'" (String "'" (clean_str_for_sql s'))
      else String c (clean_str_for_sql s')
  end.

End Db.

(** ** [integrity.py] *)

Module Integrity.

(** A game date, with the [strftime('%Y%m%d')] the checker prints it by. *)
Record date := Date { year : nat; month : nat; day : nat }.

#[global] Instance date_eq_dec : EqDecision date.
Proof. solve_decision. Defined.

Definition digit (n : nat) : ascii := ascii_of_nat (48 + n mod 10).
Definition pad2 (n : nat) : string := String (digit (n / 10)) (String (digit n) "").
Definition pad4 (n : nat) : string :=
  String (digit (n / 1000)) (String (digit (n / 100)) (pad2 n)).
Definition strftime_Ymd (d : date) : string :=
  pad4 (year d) +:+ pad2 (month d) +:+ pad2 (day d).

Definition date_leb (a b : date) : bool :=
  (year a <? year b)%nat
  || (year a =? year b)%nat
     && ((month a <? month b)%nat
         || (month a =? month b)%nat && (day a <=? day b)%nat).

(** The columns of [playerstats] and [teamstats] that the checks read.
    [open_spread] and [open_pts] are float columns; the checks compare,
    negate and take absolute values only, and are modelled on integer
    values. *)
Record pstats_row := PRow {
  p_gd : date; p_team : string; p_opp : string; p_gid : string;
  p_tsid : Z; p_starter : bool; p_player : string
}.

Record tstats_row := TRow {
  t_id : Z; t_gid : string; t_gd : date; t_team : string; t_opp : string;
  t_home : bool; t_ot : Z; t_open_spread : Z; t_open_pts : Z
}.

(** Rows of [err_log] and of [name_log]. *)
Record err_row := ErrRow { table : string; id : string; info : string }.
Record name_row := NameRow { name1 : string; name2 : string; dist : nat }.

#[global] Instance err_row_eq_dec : EqDecision err_row.
Proof. solve_decision. Defined.
#[global] Instance name_row_eq_dec : EqDecision name_row.
Proof. solve_decision. Defined.

(** [DataFrame.groupby(key)]: the groups in increasing key order, each
    with its rows in table order. *)
Definition groupby {R K : Type} `{EqDecision K} (le : K → K → bool) (key : R → K)
    (rows : list R) : list (K * list R) :=
  map (fun k => (k, filter (fun r => key r = k) rows))
      (sort_stable le (unique (map key rows))).

(** [df.iloc[i]] *)
Definition iloc {R : Type} (rows : list R) (i : nat) : result R :=
  not_none (rows !! i) IndexError.

(* Boundary constraints. *)
Definition MAX_OPEN_SPREAD : Z := 25.
Definition MAX_OPEN_PTS : Z := 250.
Definition MIN_OPEN_PTS : Z := 150.
Definition MAX_LEVENSHTEIN : nat := 4.

(** The attributes of [DBIntegrityCheck]; of the injury and news tables
    only the [player] column is read. *)
Record t := Make {
  pstats : list pstats_row;
  tstats : list tstats_row;
  inj : list string;
  news : list string;
  err_log : list err_row;
  name_log : list name_row;
  known_sim_names : list (string * string);
  name_converter : NameConverter.t
}.

(** [__init__], from the loaded tables. *)
Definition init (pstats : list pstats_row) (tstats : list tstats_row)
    (inj news : list string) (known_sim_names : list (string * string))
    (name_converter : NameConverter.t) : t :=
  Make pstats tstats inj news [] [] known_sim_names name_converter.

Definition set_err_log (self : t) (l : list err_row) : t :=
  Make (pstats self) (tstats self) (inj self) (news self) l (name_log self)
       (known_sim_names self) (name_converter self).

Definition set_name_log (self : t) (l : list name_row) : t :=
  Make (pstats self) (tstats self) (inj self) (news self) (err_log self) l
       (known_sim_names self) (name_converter self).

Definition set_name_converter (self : t) (c : NameConverter.t) : t :=
  Make (pstats self) (tstats self) (inj self) (news self) (err_log self)
       (name_log self) (known_sim_names self) c.

(** [_log(tbl, info, data_id)] *)
Definition log (self : t) (tbl info data_id : string) : t :=
  set_err_log self (err_log self ++ [ErrRow tbl data_id info]).

(** [_names_are_equiv] *)
Definition names_are_equiv (self : t) (a b : string) : bool :=
  existsb (fun known_pair : string * string =>
             DataUtils.sequences_equal [a; b] [known_pair.1; known_pair.2] false)
          (known_sim_names self).

(** [__inspect_gid_grp] *)
Definition inspect_gid_grp (self : t) (grp : list tstats_row) (gid : string) : result t :=
  let log := fun x => log self "TStats" x ("gid = " +:+ gid) in
  (* only two records *)
  if bool_decide (length grp ≠ 2) then Return (log "Row count != 2") else
  row1 ← iloc grp 0;
  row2 ← iloc grp 1;
  (* only 1 GD *)
  if bool_decide (t_gd row1 ≠ t_gd row2) then Return (log "gd count != 1") else
  (* team / opponent matches up *)
  if bool_decide (t_team row1 ≠ t_opp row2) || bool_decide (t_opp row1 ≠ t_team row2)
  then Return (log "opp/team mismatch") else
  (* only one home / away team *)
  if t_home row1 && t_home row2 then Return (log "2 home teams") else
  if negb (t_home row1) && negb (t_home row2) then Return (log "2 away teams") else
  (* OT periods match *)
  if bool_decide (t_ot row1 ≠ t_ot row2) then Return (log "OT periods different") else
  (* Opening spread figure makes sense on absolute basis and relative
     figures are concordant *)
  if bool_decide (t_open_spread row1 ≠ - t_open_spread row2)%Z
  then Return (log "open_spread not negative versions of each other") else
  if (MAX_OPEN_SPREAD <? Z.abs (t_open_spread row1))%Z
  then Return (log "open_spread > MAX_OPEN_SPREAD") else
  (* open_pts figures are equivalent and value makes sense *)
  if bool_decide (t_open_pts row1 ≠ t_open_pts row2)
  then Return (log "open_pts different") else
  if (MAX_OPEN_PTS <? t_open_pts row1)%Z || (t_open_pts row1 <? MIN_OPEN_PTS)%Z
  then Return (log "open_pts outside boundaries") else
  Return self.

(** [__inspect_team_gd_group] *)
Definition inspect_team_gd_group (self : t) (grp : list pstats_row) (gd : date)
    (team : string) : result t :=
  (* ID to use when logging any inconsistencies found in this method *)
  let did := "gd/team grp (" +:+ strftime_Ymd gd +:+ "/" +:+ team +:+ ")" in
  (* 7+ records (players) *)
  if (length grp <? 7)%nat then Return (log self "PStats" "Row count < 7" did) else
  (* 5 starters *)
  if bool_decide (length (filter (fun r => p_starter r = true) grp) ≠ 5)
  then Return (log self "PStats" "starter count != 5" did) else
  (* only one GID *)
  let gids := unique (map p_gid grp) in
  if bool_decide (length gids ≠ 1)
  then Return (log self "PStats" "gid count != 1" did) else
  (* only one OPP *)
  let opponents := unique (map p_opp grp) in
  if bool_decide (length opponents ≠ 1)
  then Return (log self "PStats" "opp count != 1" did) else
  (* OPP records share the same GID *)
  opp0 ← item0 opponents;
  let opp_df := filter (fun r => p_team r = opp0 ∧ p_gd r = gd) (pstats self) in
  let opp_gids := unique (map p_gid opp_df) in
  gid0 ← item0 gids;
  opp_gid0 ← item0 opp_gids;
  if bool_decide (gid0 ≠ opp_gid0)
  then Return (log self "PStats" "opp gid != gid" did) else
  (* only one TSID *)
  let tsids := unique (map p_tsid grp) in
  if bool_decide (length tsids ≠ 1)
  then Return (log self "PStats" "tsid count != 1" did) else
  (* TSID matches only one record in TStats *)
  tsid0 ← item0 tsids;
  let trow := filter (fun r => t_id r = tsid0) (tstats self) in
  if bool_decide (length trow ≠ 1)
  then Return (log self "TStats" "TStats.id = tsid match count != 1" did) else
  (* GD & TEAM match expected in TStats record *)
  trow0 ← iloc trow 0;
  if bool_decide (gd ≠ t_gd trow0)
  then Return (log self "TStats" "TStats.GD != GD" did) else
  if bool_decide (t_team trow0 ≠ team)
  then Return (log self "TStats" "TStats.team != team" did) else
  (* no duplicate records for single player *)
  let uniq_names := unique (map p_player grp) in
  if bool_decide (length grp ≠ length uniq_names)
  then Return (log self "PStats" "Duplicate name" did) else
  Return self.

(** A [for] loop whose body may raise. *)
Fixpoint for_each {A : Type} (self : t) (items : list A) (body : t → A → result t)
    : result t :=
  match items with
  | [] => Return self
  | x :: rest => self' ← body self x; for_each self' rest body
  end.

Definition inspect_pstats (self : t) : result t :=
  (* Conduct checks on GD / TEAM groups *)
  for_each self
    (groupby (fun a b : date * string =>
                if bool_decide (a.1 = b.1) then String.leb a.2 b.2 else date_leb a.1 b.1)
             (fun r => (p_gd r, p_team r)) (pstats self))
    (fun self '((gd, team), grp) => inspect_team_gd_group self grp gd team).

Definition inspect_tstats (self : t) : result t :=
  for_each self (groupby String.leb t_gid (tstats self))
    (fun self '(gid, grp) => inspect_gid_grp self grp gid).

(** The body of the outer loop of [inspect_pstats_names] for one
    [(i, ref_name)]. *)
Definition inspect_ref_name (uniq_names : list string) (self : t)
    (item : nat * string) : result t :=
  let '(i, ref_name) := item in
  let other_names := drop (i + 1) uniq_names in
  let distances := name_edit_distances ref_name other_names in
  let distances := filter (fun x => (x.2 < MAX_LEVENSHTEIN)%nat) distances in
  for_each self distances
    (fun self '(name, dist) =>
       if names_are_equiv self ref_name name then Return self
       else Return (set_name_log self (name_log self ++ [NameRow ref_name name dist]))).

(** [inspect_pstats_names]; the closing [sort_values(by='name1',
    ascending=False)] is taken to keep rows of equal [name1] in their
    order. *)
Definition inspect_pstats_names (self : t) : result t :=
  let uniq_names := unique (map p_player (pstats self)) in
  self ← for_each self (imap (fun i ref_name => (i, ref_name))
                             (take (length uniq_names - 1) uniq_names))
                  (inspect_ref_name uniq_names);
  Return (set_name_log self
            (sort_stable (fun x y => String.leb (name1 y) (name1 x)) (name_log self))).

(** [inspect_names_in_table] *)
Definition inspect_names_in_table (self : t) (names : list string) (table : string)
    : result t :=
  for_each self names
    (fun self name =>
       let '(conv, r) := NameConverter.is_problematic (name_converter self) name in
       let self := set_name_converter self conv in
       '(problematic, info) ← r;
       if problematic : bool then Return (log self table info name) else Return self).

Definition inspect_inj_names (self : t) : result t :=
  inspect_names_in_table self (unique (inj self)) "injuries".

Definition inspect_news_names (self : t) : result t :=
  inspect_names_in_table self (unique (news self)) "news".

(** [run] *)
Definition run (self : t) : result t :=
  self ← inspect_pstats self;
  self ← inspect_tstats self;
  self ← inspect_pstats_names self;
  self ← inspect_inj_names self;
  inspect_news_names self.

Definition errors (self : t) : nat := length (err_log self).
Definition sim_names (self : t) : nat := length (name_log self).

End Integrity.

(** ** [bigdataball.py] *)

Module Bigdataball.

(** [convert_name], over the module's [name_converter]: any exception of
    [clean] is swallowed and the name returned as it came. *)
Definition convert_name (name_converter : NameConverter.t) (name : string)
    : NameConverter.t * result (option string) :=
  let '(name_converter, r) := NameConverter.clean name_converter name in
  (name_converter, try_except r (fun _ => Return (Some name))).

(** [create_gid], with [strftime('%y%m%d')]. *)
Definition create_gid (game_date : Integrity.date) (home_team away_team : string) : string :=
  let date_str := Integrity.pad2 (Integrity.year game_date)
                  +:+ Integrity.pad2 (Integrity.month game_date)
                  +:+ Integrity.pad2 (Integrity.day game_date) in
  date_str +:+ "_" +:+ home_team +:+ "_" +:+ away_team.

(** [NewTStats._create_gid], on the columns of a row it reads. *)
Definition _create_gid (gd : Integrity.date) (is_home : bool) (team opp : string) : string :=
  if is_home then create_gid gd team opp else create_gid gd opp team.

End Bigdataball.

(** ** Notions used to state the properties *)

(** The names of the groups of a pattern. *)
Fixpoint group_names (r : Re.regex) : list string :=
  match r with
  | Re.Cat r1 r2 | Re.Alt r1 r2 => group_names r1 ++ group_names r2
  | Re.Opt r' => group_names r'
  | Re.Group name r' => name :: group_names r'
  | _ => []
  end.

(** A string with no whitespace character in it. *)
Definition no_whitespace (s : string) : Prop :=
  ∀ c : ascii, contains c s = true → isspace c = false.

(** The [Name] objects of the entries that decompose, in order. *)
Definition decomposed (names : list string) : list Name.t :=
  omap (fun name => match Name.init name with
                    | Return n => Some n
                    | Raise _ => None
                    end) names.

(** The suffixes of the full-name pattern. *)
Definition suffixes : list string := ["Jr."; "Jr"; "Sr."; "Sr"; "III"; "II"; "IV"; "V"].

(** What stands between a last name and a suffix: an optional comma and one
    whitespace character. *)
Definition is_separator (sep : string) : Prop :=
  ∃ w : ascii, isspace w = true ∧ (sep = String w "" ∨ sep = String "," (String w "")).

(** The last character of a string. *)
Fixpoint last_char (s : string) : option ascii :=
  match s with
  | EmptyString => None
  | String c EmptyString => Some c
  | String _ s' => last_char s'
  end.

(** The rows [inspect_names_in_table] logs for [names]: one per
    problematic name, in order, with the reason [is_problematic] gives. *)
Definition problem_rows (name_converter : NameConverter.t) (table : string)
    (names : list string) : list Integrity.err_row :=
  omap (fun name =>
          match (NameConverter.is_problematic name_converter name).2 with
          | Return (true, info) => Some (Integrity.ErrRow table name info)
          | _ => None
          end) names.

(** How often a character occurs in a string. *)
Fixpoint count_char (c : ascii) (s : string) : nat :=
  match s with
  | EmptyString => 0
  | String d s' => (if Ascii.eqb c d then 1 else 0) + count_char c s'
  end.

(** ** Sample tables *)

(** Seven players of one team on one date, five of them starters, all with
    one game identifier and one opponent, in a table that holds no row of
    that opponent on that date. *)
Definition lone_group : list Integrity.pstats_row :=
  let row := Integrity.PRow (Integrity.Date 2018 1 15) "BOS" "NYK" "180115_BOS_NYK" 1 in
  [row true "Kyrie Irving"; row true "Al Horford"; row true "Jayson Tatum";
   row true "Jaylen Brown"; row true "Aron Baynes"; row false "Marcus Smart";
   row false "Terry Rozier"].

(** * Properties *)

(** ** The embedding on sample inputs *)

Example Name_init_ex1 :
  Name.init " Tim Hardaway, Jr. " =
  Return (Name.Make "Tim Hardaway, Jr." (Some "Tim") (Some "Hardaway") (Some "Jr.")).
Proof. vm_compute. reflexivity. Qed.

Example Name_init_ex2 :
  Name.init "Luc Mbah a Moute" =
  Return (Name.Make "Luc Mbah a Moute" (Some "Luc Mbah a") (Some "Moute") None).
Proof. vm_compute. reflexivity. Qed.

Example Name_init_ex3 : Name.init "Nene" = Raise AttributeError.
Proof. vm_compute. reflexivity. Qed.

Example edit_distance_ex1 : Nltk.edit_distance "kitten" "sitting" = 3.
Proof. vm_compute. reflexivity. Qed.

Example edit_distance_ex2 : Nltk.edit_distance "" "abc" = 3 ∧ Nltk.edit_distance "abc" "" = 3.
Proof. vm_compute. split; reflexivity. Qed.

(** ** [NameConverter] *)

(** C2: for every pair [(old, new)] of the pairing table, [clean old]
    returns [new] and leaves the converter as it was, whatever the
    known-missing set and the known-canonical universe contain. *)
Theorem clean_known_pair (self : NameConverter.t) (old new : string) :
  NameConverter.known_pairs self !! old = Some new →
  NameConverter.clean self old = (self, Return (Some new)).
Proof.
  intros Hpair. unfold NameConverter.clean. rewrite Hpair. reflexivity.
Qed.

Lemma clean_known_pair_witness :
  let self := NameConverter.init {[ "Lou Williams" := "Louis Williams" ]}
                {[ "Lou Williams" ]} {[ "Lou Williams"; "Louis Williams" ]} [] false true in
  "Lou Williams" ∈ NameConverter.known self ∧
  "Lou Williams" ∈ NameConverter.known_missing self ∧
  NameConverter.clean self "Lou Williams" = (self, Return (Some "Louis Williams")).
Proof.
  intros self. split; [|split].
  - unfold self; simpl. set_solver.
  - unfold self; simpl. set_solver.
  - apply (clean_known_pair self "Lou Williams" "Louis Williams"). reflexivity.
Defined.

(** C3, as stated, fails: a name of the known-canonical universe that is
    also a key of the pairing table is replaced by its pairing. *)
Lemma clean_known_name_overridden :
  ¬ (∀ (self : NameConverter.t) (n : string),
       n ∈ NameConverter.known self →
       (NameConverter.clean self n).2 = Return (Some n)).
Proof.
  intros H.
  specialize (H (NameConverter.init {[ "Lou Williams" := "Louis Williams" ]}
                   ∅ {[ "Lou Williams"; "Louis Williams" ]} [] false true)
                "Lou Williams").
  simpl in H.
  assert (Hin : "Lou Williams" ∈ ({[ "Lou Williams"; "Louis Williams" ]} : gset string))
    by set_solver.
  specialize (H Hin). vm_compute in H. discriminate H.
Qed.

(** C3, amended: a name of the known-canonical universe that the pairing
    table does not map to another name is returned unchanged, and the
    converter is left as it was. *)
Theorem clean_known_name (self : NameConverter.t) (n : string) :
  n ∈ NameConverter.known self →
  (∀ new, NameConverter.known_pairs self !! n = Some new → new = n) →
  NameConverter.clean self n = (self, Return (Some n)).
Proof.
  intros Hknown Hpairs. unfold NameConverter.clean.
  destruct (NameConverter.known_pairs self !! n) as [new|] eqn:Hlook.
  - rewrite (Hpairs new eq_refl). reflexivity.
  - rewrite (bool_decide_eq_true_2 _ Hknown), orb_true_r. reflexivity.
Qed.

Lemma clean_known_name_witness :
  let self := NameConverter.init {[ "Lou Williams" := "Louis Williams" ]}
                ∅ {[ "Lou Williams"; "Louis Williams" ]} [] false true in
  NameConverter.clean self "Louis Williams" = (self, Return (Some "Louis Williams")).
Proof.
  intros self. apply (clean_known_name self "Louis Williams").
  - unfold self; simpl. set_solver.
  - intros new Hnew. vm_compute in Hnew. discriminate Hnew.
Defined.

(** C9: [is_problematic] returns the converter it was given, with every
    attribute as before, and a pair of a boolean and a reason that is not
    the empty string; it never raises. *)
Theorem is_problematic_read_only (self : NameConverter.t) (name : string) :
  ∃ (problematic : bool) (reason : string),
    NameConverter.is_problematic self name = (self, Return (problematic, reason)) ∧
    reason ≠ "".
Proof.
  unfold NameConverter.is_problematic.
  destruct (NameConverter.known_pairs self !! name) as [new|].
  - eexists _, _. split; [reflexivity|]. discriminate.
  - destruct (bool_decide (name ∈ NameConverter.known_missing self)).
    + eexists _, _. split; [reflexivity|]. discriminate.
    + destruct (bool_decide (name ∈ NameConverter.known self));
        eexists _, _; (split; [reflexivity|]); discriminate.
Qed.

(** ** [DBIntegrityCheck]: the team-pair checklist *)

(** C7: the two rows of the game pass the whole checklist, so nothing is
    logged, be it by [__inspect_gid_grp] on the group or by [inspect_tstats]
    on the table made of these two rows; with both rows flagged home exactly
    one row is logged, ["2 home teams"], whatever the overtime, spread and
    total-points columns hold, so the later checks are not reached. *)
Theorem team_pair_check (self : Integrity.t) (G A B : string) (gd : Integrity.date)
    (id1 id2 : Z) :
  let row1 := Integrity.TRow id1 G gd A B true 0 (-3) 210 in
  let row2 := Integrity.TRow id2 G gd B A false 0 3 210 in
  Integrity.inspect_gid_grp self [row1; row2] G = Return self ∧
  (Integrity.tstats self = [row1; row2] → Integrity.inspect_tstats self = Return self) ∧
  ∀ ot1 spread1 pts1 ot2 spread2 pts2 : Z,
    ∃ self',
      Integrity.inspect_gid_grp self
        [Integrity.TRow id1 G gd A B true ot1 spread1 pts1;
         Integrity.TRow id2 G gd B A true ot2 spread2 pts2] G = Return self' ∧
      Integrity.err_log self' =
        Integrity.err_log self ++ [Integrity.ErrRow "TStats" ("gid = " +:+ G) "2 home teams"] ∧
      Integrity.name_log self' = Integrity.name_log self.
Proof.
  intros row1 row2.
  assert (Hgrp : Integrity.inspect_gid_grp self [row1; row2] G = Return self).
  { unfold Integrity.inspect_gid_grp, row1, row2. simpl.
    rewrite !(bool_decide_eq_false_2 (_ ≠ _)) by (intros Hne; apply Hne; reflexivity).
    reflexivity. }
  split; [exact Hgrp|]. split.
  - intros Hts. unfold Integrity.inspect_tstats, Integrity.groupby. rewrite Hts.
    unfold unique. simpl.
    rewrite bool_decide_eq_true_2 by set_solver. simpl.
    rewrite !filter_cons_True by reflexivity. rewrite filter_nil. rewrite Hgrp. reflexivity.
  - intros ot1 spread1 pts1 ot2 spread2 pts2. eexists. split.
    + unfold Integrity.inspect_gid_grp. simpl.
      rewrite !(bool_decide_eq_false_2 (_ ≠ _)) by (intros Hne; apply Hne; reflexivity).
      reflexivity.
    + split; reflexivity.
Qed.

Lemma team_pair_check_witness :
  let self := Integrity.init []
                [Integrity.TRow 1 "180115_BOS_NYK" (Integrity.Date 2018 1 15) "BOS" "NYK" true 0 (-3) 210;
                 Integrity.TRow 2 "180115_BOS_NYK" (Integrity.Date 2018 1 15) "NYK" "BOS" false 0 3 210]
                [] [] [] (NameConverter.init ∅ ∅ ∅ [] false true) in
  Integrity.inspect_tstats self = Return self.
Proof.
  intros self.
  apply (team_pair_check self "180115_BOS_NYK" "BOS" "NYK" (Integrity.Date 2018 1 15) 1 2).
  reflexivity.
Defined.

(** ** [DBIntegrityCheck]: the player-group checklist *)

(** C1: on the table [lone_group] the check that the opponent's rows share
    the game identifier reads [opp_gids[0]] of an empty list, and [run]
    raises [IndexError] instead of logging a discrepancy, whatever the
    other tables hold. *)
Theorem run_raises_without_opponent_rows (tstats : list Integrity.tstats_row)
    (inj news : list string) (known_sim_names : list (string * string))
    (name_converter : NameConverter.t) :
  Integrity.run (Integrity.init lone_group tstats inj news known_sim_names name_converter)
  = Raise IndexError.
Proof. vm_compute. reflexivity. Qed.

(** ** Sorting, loops and the order-insensitive comparison *)

Section SortFacts.
Context {A : Type} (le : A → A → bool).

Lemma insert_sorted_perm (x : A) (l : list A) : insert_sorted le x l ≡ₚ x :: l.
Proof.
  induction l as [|y l IH]; simpl; [reflexivity|].
  destruct (le x y); [reflexivity|].
  rewrite IH. apply Permutation_swap.
Qed.

Lemma sort_stable_perm (l : list A) : sort_stable le l ≡ₚ l.
Proof.
  induction l as [|x l IH]; simpl; [reflexivity|].
  rewrite insert_sorted_perm. by rewrite IH.
Qed.

Lemma elem_of_sort_stable (x : A) (l : list A) : x ∈ sort_stable le l ↔ x ∈ l.
Proof. by rewrite sort_stable_perm. Qed.
End SortFacts.

Lemma sequences_equal_pairs (a b c d : string) :
  DataUtils.sequences_equal [a; b] [c; d] false = true ↔
  (a = c ∧ b = d) ∨ (a = d ∧ b = c).
Proof.
  unfold DataUtils.sequences_equal. rewrite bool_decide_eq_true. split.
  - intros Heq.
    assert (Hl : ∀ x, x ∈ [a; b] → x ∈ [c; d]).
    { intros x Hx. apply (elem_of_list_to_set_disj (A:=string)).
      rewrite <- Heq. by apply elem_of_list_to_set_disj. }
    assert (Hr : ∀ x, x ∈ [c; d] → x ∈ [a; b]).
    { intros x Hx. apply (elem_of_list_to_set_disj (A:=string)).
      rewrite Heq. by apply elem_of_list_to_set_disj. }
    pose proof (Hl a) as Ha. pose proof (Hl b) as Hb.
    pose proof (Hr c) as Hc. pose proof (Hr d) as Hd.
    rewrite !elem_of_cons, !elem_of_nil in Ha, Hb, Hc, Hd.
    destruct (decide (a = c)) as [Hac|Hac]; [left|right]; intuition congruence.
  - intros [[-> ->]|[-> ->]]; [reflexivity|].
    apply list_to_set_disj_perm, Permutation_swap.
Qed.

Lemma names_are_equiv_spec (self : Integrity.t) (a b : string) :
  Integrity.names_are_equiv self a b = true ↔
  (a, b) ∈ Integrity.known_sim_names self ∨ (b, a) ∈ Integrity.known_sim_names self.
Proof.
  unfold Integrity.names_are_equiv. rewrite existsb_exists. split.
  - intros [[c d] [Hin Heq]]. apply list_elem_of_In in Hin.
    apply sequences_equal_pairs in Heq. simpl in Heq.
    destruct Heq as [[-> ->]|[-> ->]]; auto.
  - intros [Hin|Hin]; apply list_elem_of_In in Hin.
    + exists (a, b). split; [exact Hin|]. apply sequences_equal_pairs. auto.
    + exists (b, a). split; [exact Hin|]. apply sequences_equal_pairs. auto.
Qed.

(** ** [DBIntegrityCheck]: near-duplicate names *)

Lemma names_are_equiv_set_name_log (self : Integrity.t) (l : list Integrity.name_row)
    (a b : string) :
  Integrity.names_are_equiv (Integrity.set_name_log self l) a b =
  Integrity.names_are_equiv self a b.
Proof. reflexivity. Qed.

Lemma bind_Return {A B : Type} (a : A) (f : A → result B) : Return a ≫= f = f a.
Proof. reflexivity. Qed.

Lemma for_each_cons {A : Type} (self : Integrity.t) (x : A) (rest : list A)
    (body : Integrity.t → A → result Integrity.t) :
  Integrity.for_each self (x :: rest) body =
  body self x ≫= fun self' => Integrity.for_each self' rest body.
Proof. reflexivity. Qed.

(** The inner loop appends one row per retained distance, in order. *)
Lemma inner_loop_log (ref_name : string) (distances : list (string * nat)) :
  ∀ self : Integrity.t,
    Integrity.for_each self distances
      (fun self '(name, dist) =>
         if Integrity.names_are_equiv self ref_name name then Return self
         else Return (Integrity.set_name_log self
                        (Integrity.name_log self ++ [Integrity.NameRow ref_name name dist])))
    = Return (Integrity.set_name_log self
                (Integrity.name_log self ++
                 map (fun x => Integrity.NameRow ref_name x.1 x.2)
                     (filter (fun x => Integrity.names_are_equiv self ref_name x.1 = false)
                             distances))).
Proof.
  induction distances as [|[name dist] rest IH]; intros self; simpl.
  - rewrite app_nil_r. destruct self; reflexivity.
  - destruct (Integrity.names_are_equiv self ref_name name) eqn:Heq; simpl.
    + rewrite IH. rewrite filter_cons_False by (simpl; congruence). reflexivity.
    + rewrite IH. rewrite filter_cons_True by (simpl; congruence). simpl.
      rewrite <- app_assoc. reflexivity.
Qed.

(** What one pass of the outer loop leaves in [name_log]. *)
Lemma inspect_ref_name_log (uniq_names : list string) (self : Integrity.t)
    (i : nat) (ref_name : string) :
  ∃ self',
    Integrity.inspect_ref_name uniq_names self (i, ref_name) = Return self' ∧
    Integrity.known_sim_names self' = Integrity.known_sim_names self ∧
    ∀ row, row ∈ Integrity.name_log self' ↔
      row ∈ Integrity.name_log self ∨
      ∃ j name, i < j ∧ uniq_names !! j = Some name ∧
        row = Integrity.NameRow ref_name name (Nltk.edit_distance name ref_name) ∧
        Nltk.edit_distance name ref_name < Integrity.MAX_LEVENSHTEIN ∧
        Integrity.names_are_equiv self ref_name name = false.
Proof.
  unfold Integrity.inspect_ref_name. rewrite inner_loop_log.
  eexists. split; [reflexivity|]. split; [reflexivity|].
  intros row. simpl. rewrite elem_of_app. apply or_iff_compat_l.
  rewrite list_elem_of_fmap. split.
  - intros [[name d] [-> Hin]]. simpl.
    apply list_elem_of_filter in Hin as [Hequiv Hin].
    apply list_elem_of_filter in Hin as [Hlt Hin].
    unfold name_edit_distances in Hin. rewrite elem_of_sort_stable in Hin.
    apply list_elem_of_fmap in Hin as [name' [Heq Hin]].
    injection Heq as -> ->.
    apply list_elem_of_lookup in Hin as [k Hk]. rewrite lookup_drop in Hk.
    exists (i + 1 + k), name'. simpl in *. repeat split; auto. lia.
  - intros (j & name & Hij & Hj & -> & Hlt & Hequiv).
    exists (name, Nltk.edit_distance name ref_name). split; [reflexivity|].
    apply list_elem_of_filter. split; [exact Hequiv|].
    apply list_elem_of_filter. split; [exact Hlt|].
    unfold name_edit_distances. rewrite elem_of_sort_stable.
    apply list_elem_of_fmap. exists name. split; [reflexivity|].
    apply list_elem_of_lookup. exists (j - (i + 1)). rewrite lookup_drop.
    replace (i + 1 + (j - (i + 1))) with j by lia. exact Hj.
Qed.

(** The outer loop over [refs], the part of the list that starts at
    position [k]. *)
Lemma outer_loop_log (uniq_names : list string) (refs : list string) :
  ∀ (k : nat) (self : Integrity.t),
    (∀ i r, refs !! i = Some r → uniq_names !! (k + i) = Some r) →
    ∃ self',
      Integrity.for_each self (imap (fun i ref_name => (k + i, ref_name)) refs)
        (Integrity.inspect_ref_name uniq_names) = Return self' ∧
      Integrity.known_sim_names self' = Integrity.known_sim_names self ∧
      ∀ row, row ∈ Integrity.name_log self' ↔
        row ∈ Integrity.name_log self ∨
        ∃ i j a b, k ≤ i < k + length refs ∧ i < j ∧
          uniq_names !! i = Some a ∧ uniq_names !! j = Some b ∧
          row = Integrity.NameRow a b (Nltk.edit_distance b a) ∧
          Nltk.edit_distance b a < Integrity.MAX_LEVENSHTEIN ∧
          Integrity.names_are_equiv self a b = false.
Proof.
  induction refs as [|r refs IH]; intros k self Hrefs.
  - exists self. split; [reflexivity|]. split; [reflexivity|].
    intros row. split; [auto|]. intros [H|(i & j & a & b & Hi & _)]; [exact H|].
    simpl in Hi. lia.
  - rewrite imap_cons, for_each_cons.
    destruct (inspect_ref_name_log uniq_names self (k + 0) r) as (self1 & Hrun1 & Hk1 & Hlog1).
    rewrite Hrun1, bind_Return.
    destruct (IH (S k) self1) as (self2 & Hrun2 & Hk2 & Hlog2).
    { intros i r' Hi. replace (S k + i) with (k + S i) by lia. by apply Hrefs. }
    exists self2. split.
    { rewrite <- Hrun2. f_equal. apply imap_ext. intros i x _. simpl. f_equal. lia. }
    split; [congruence|].
    assert (Hequiv : ∀ a b, Integrity.names_are_equiv self1 a b =
                            Integrity.names_are_equiv self a b).
    { intros a b. unfold Integrity.names_are_equiv. by rewrite Hk1. }
    pose proof (Hrefs 0 r eq_refl) as Hr.
    intros row. rewrite Hlog2, Hlog1. split.
    + intros [[H|(j & name & Hj & Hname & -> & Hlt & Heq)]
             |(i & j & a & b & Hi & Hij & Ha & Hb & -> & Hlt & Heq)].
      * left; exact H.
      * right. exists (k + 0), j, r, name. repeat split; auto; simpl; lia.
      * right. exists i, j, a, b. rewrite Hequiv in Heq. repeat split; auto; simpl; lia.
    + intros [H|(i & j & a & b & Hi & Hij & Ha & Hb & -> & Hlt & Heq)].
      * left; left; exact H.
      * destruct (decide (i = k)) as [->|Hne].
        -- left; right. replace (k + 0) with k in * by lia.
           assert (a = r) as -> by congruence.
           exists j, b. repeat split; auto.
        -- right. exists i, j, a, b. rewrite Hequiv. simpl in Hi.
           repeat split; auto; lia.
Qed.

(** C6: after [inspect_pstats_names] on a checker whose name log is still
    empty, for names [n1] at position [i] and [n2] at a later position [j]
    of the unique-name list, a row for the pair is in the name log iff their
    edit distance is below 4 and neither [(n1, n2)] nor [(n2, n1)] is one of
    the known similar pairs; the row carries that distance. The distance
    between "Jon Smith" and "John Smith" is 1. *)
Theorem near_duplicate_log (self : Integrity.t) :
  Integrity.name_log self = [] →
  ∃ self',
    Integrity.inspect_pstats_names self = Return self' ∧
    (∀ (i j : nat) (n1 n2 : string),
       i < j →
       unique (map Integrity.p_player (Integrity.pstats self)) !! i = Some n1 →
       unique (map Integrity.p_player (Integrity.pstats self)) !! j = Some n2 →
       ((∃ d, Integrity.NameRow n1 n2 d ∈ Integrity.name_log self') ↔
        (Nltk.edit_distance n2 n1 < 4 ∧
         ((n1, n2) ∉ Integrity.known_sim_names self) ∧
         ((n2, n1) ∉ Integrity.known_sim_names self))) ∧
       (∀ d, Integrity.NameRow n1 n2 d ∈ Integrity.name_log self' →
             d = Nltk.edit_distance n2 n1)) ∧
    Nltk.edit_distance "John Smith" "Jon Smith" = 1 ∧
    Nltk.edit_distance "Jon Smith" "John Smith" = 1.
Proof.
  intros Hempty. unfold Integrity.inspect_pstats_names.
  set (uniq_names := unique (map Integrity.p_player (Integrity.pstats self))).
  destruct (outer_loop_log uniq_names (take (length uniq_names - 1) uniq_names) 0 self)
    as (self1 & Hrun & Hknown & Hlog).
  { intros i r Hi. apply lookup_take_Some in Hi as [Hi _]. exact Hi. }
  change (imap (fun i ref_name => (0 + i, ref_name)) (take (length uniq_names - 1) uniq_names))
    with (imap (fun (i : nat) (ref_name : string) => (i, ref_name))
               (take (length uniq_names - 1) uniq_names)) in Hrun.
  rewrite Hrun, bind_Return.
  eexists. split; [reflexivity|]. split; [|split; vm_compute; reflexivity].
  assert (Hrows : ∀ row, row ∈ Integrity.name_log
            (Integrity.set_name_log self1
               (sort_stable (fun x y => String.leb (Integrity.name1 y) (Integrity.name1 x))
                  (Integrity.name_log self1))) ↔
          ∃ i j a b, i < j ∧ uniq_names !! i = Some a ∧ uniq_names !! j = Some b ∧
            row = Integrity.NameRow a b (Nltk.edit_distance b a) ∧
            Nltk.edit_distance b a < 4 ∧ Integrity.names_are_equiv self a b = false).
  { intros row. simpl. rewrite elem_of_sort_stable, Hlog, Hempty. split.
    - intros [H|(i & j & a & b & _ & Hij & Ha & Hb & Hrow & Hlt & Heq)].
      + by apply elem_of_nil in H.
      + exists i, j, a, b. repeat split; assumption.
    - intros (i & j & a & b & Hij & Ha & Hb & Hrow & Hlt & Heq). right.
      exists i, j, a, b. apply lookup_lt_Some in Hb as Hlen.
      rewrite length_take. repeat split; try assumption; lia. }
  intros i j n1 n2 Hij Hn1 Hn2. split; [split|].
  - intros [d Hd]. apply Hrows in Hd as (i' & j' & a & b & _ & _ & _ & Hrow & Hlt & Heq).
    injection Hrow as -> -> ->. split; [exact Hlt|].
    apply not_true_iff_false in Heq. rewrite names_are_equiv_spec in Heq. tauto.
  - intros (Hlt & Hab & Hba). exists (Nltk.edit_distance n2 n1). apply Hrows.
    exists i, j, n1, n2. repeat split; auto.
    apply not_true_iff_false. rewrite names_are_equiv_spec. tauto.
  - intros d Hd. apply Hrows in Hd as (i' & j' & a & b & _ & _ & _ & Hrow & _).
    by injection Hrow as -> -> ->.
Qed.

Lemma near_duplicate_log_witness :
  let row := Integrity.PRow (Integrity.Date 2018 1 15) "BOS" "NYK" "180115_BOS_NYK" 1 true in
  let self := Integrity.init [row "Jon Smith"; row "Al Horford"; row "John Smith"]
                [] [] [] [] (NameConverter.init ∅ ∅ ∅ [] false true) in
  ∃ self',
    Integrity.inspect_pstats_names self = Return self' ∧
    Integrity.NameRow "Jon Smith" "John Smith" 1 ∈ Integrity.name_log self'.
Proof.
  intros row self.
  destruct (near_duplicate_log self eq_refl) as (self' & Hrun & Hlog & _).
  exists self'. split; [exact Hrun|].
  destruct (Hlog 0 2 "Jon Smith" "John Smith") as [[_ Hin] Hd];
    [lia|reflexivity|reflexivity|].
  destruct Hin as [d Hin].
  { split; [vm_compute; lia|]. split; apply not_elem_of_nil. }
  rewrite (Hd d Hin) in Hin. exact Hin.
Defined.

(** ** The matcher *)

Section RepeatFacts.
Context {R : Type} (p : ascii → bool) (k : nat → string → option R).

(** A repetition that matches took at least one character and handed
    the rest to its continuation. *)
Lemma plus_lazy_some (s : string) :
  ∀ (pos : nat) (m : R),
    Re.plus_lazy p k pos s = Some m →
    s ≠ "" ∧ ∃ pos' s', pos < pos' ∧ k pos' s' = Some m.
Proof.
  induction s as [|c s IH]; intros pos m; simpl; [discriminate|].
  destruct (p c); [|discriminate].
  destruct (k (S pos) s) as [m'|] eqn:Hk.
  - intros [= <-]. split; [discriminate|]. exists (S pos), s. split; [lia|exact Hk].
  - intros Hrec. apply IH in Hrec as (_ & pos' & s' & Hlt & Hk').
    split; [discriminate|]. exists pos', s'. split; [lia|exact Hk'].
Qed.

Lemma plus_greedy_some (s : string) :
  ∀ (pos : nat) (m : R),
    Re.plus_greedy p k pos s = Some m →
    s ≠ "" ∧ ∃ pos' s', pos < pos' ∧ k pos' s' = Some m.
Proof.
  induction s as [|c s IH]; intros pos m; simpl; [discriminate|].
  destruct (p c); [|discriminate].
  destruct (Re.plus_greedy p k (S pos) s) as [m'|] eqn:Hrec.
  - intros [= <-]. apply IH in Hrec as (_ & pos' & s' & Hlt & Hk').
    split; [discriminate|]. exists pos', s'. split; [lia|exact Hk'].
  - intros Hk. split; [discriminate|]. exists (S pos), s. split; [lia|exact Hk].
Qed.

(** A lazy repetition over a string without whitespace fails when what
    follows it must start with a whitespace character. *)
Lemma plus_lazy_no_whitespace (s : string) :
  (∀ pos, k pos "" = None) →
  (∀ pos c s', isspace c = false → k pos (String c s') = None) →
  no_whitespace s →
  ∀ pos, Re.plus_lazy p k pos s = None.
Proof.
  intros Hempty Hhead. induction s as [|c s IH]; intros Hs pos; simpl; [reflexivity|].
  destruct (p c); [|reflexivity].
  assert (Hs' : no_whitespace s).
  { intros d Hd. apply Hs. simpl. rewrite Hd. apply orb_true_r. }
  assert (Hk : k (S pos) s = None).
  { destruct s as [|d s']; [apply Hempty|]. apply Hhead, Hs'.
    simpl. by rewrite Ascii.eqb_refl. }
  rewrite Hk. apply IH, Hs'.
Qed.
End RepeatFacts.

(** Matching a pattern leaves the groups it does not name as its
    continuation received them. *)
Lemma exec_frame (key : string) (r : Re.regex) :
  key ∉ group_names r →
  ∀ pos s g k m,
    Re.exec r pos s g k = Some m →
    ∃ pos' s' g', k pos' s' g' = Some m ∧ g' !! key = g !! key.
Proof.
  induction r as [| |p|r1 IH1 r2 IH2|r1 IH1 r2 IH2|r IH|p|p|name r IH];
    intros Hkey pos s g k m; simpl in *.
  - destruct (Nat.eqb pos 0); [|discriminate]. eauto.
  - destruct s as [|c [|d s']]; [eauto| |discriminate].
    destruct (Ascii.eqb c Re.newline); [eauto|discriminate].
  - destruct s as [|c s']; [discriminate|]. destruct (p c); [eauto|discriminate].
  - rewrite elem_of_app in Hkey. intros H.
    apply IH1 in H as (pos1 & s1 & g1 & H & Hg1); [|tauto].
    apply IH2 in H as (pos2 & s2 & g2 & H & Hg2); [|tauto].
    exists pos2, s2, g2. split; [exact H|congruence].
  - rewrite elem_of_app in Hkey.
    destruct (Re.exec r1 pos s g k) as [m1|] eqn:H1.
    + intros [= <-]. apply IH1 in H1; tauto.
    + intros H2. apply IH2 in H2; tauto.
  - destruct (Re.exec r pos s g k) as [m1|] eqn:H1.
    + intros [= <-]. apply IH in H1; tauto.
    + eauto.
  - intros H. apply plus_greedy_some in H as (_ & pos' & s' & _ & H). eauto.
  - intros H. apply plus_lazy_some in H as (_ & pos' & s' & _ & H). eauto.
  - rewrite elem_of_cons in Hkey. intros H.
    apply IH in H as (pos' & s' & g' & H & Hg'); [|tauto].
    exists pos', s', (<[name := substring 0 (pos' - pos) s]> g'). split; [exact H|].
    rewrite lookup_insert_ne by (intros ->; tauto). exact Hg'.
Qed.

Lemma substring_nonempty (n : nat) (s : string) :
  0 < n → s ≠ "" → substring 0 n s ≠ "".
Proof. destruct n; [lia|]. destruct s; [congruence|]. discriminate. Qed.

(** A match of the full-name pattern has a first name, which is not the
    empty string. *)
Lemma full_name_first (s : string) (m : Re.groups) :
  Re.match_ Re.rgx_full_name s = Some m →
  ∃ f, Re.group m "first" = Some f ∧ f ≠ "".
Proof.
  unfold Re.match_, Re.rgx_full_name, Re.group.
  cbn [Re.exec Nat.eqb]. intros H.
  apply plus_lazy_some in H as (Hs & pos' & s' & Hpos & H).
  apply (exec_frame "first") in H as (pos2 & s2 & g2 & [= <-] & Hg2).
  - exists (substring 0 (pos' - 0) s). split.
    + rewrite Hg2. apply lookup_insert_eq.
    + apply substring_nonempty; [lia|exact Hs].
  - vm_compute. intros Hin. repeat (apply elem_of_cons in Hin as [Hin|Hin]; [discriminate|]).
    by apply elem_of_nil in Hin.
Qed.

(** The full-name pattern does not match a string without whitespace. *)
Lemma full_name_needs_whitespace (s : string) :
  no_whitespace s → Re.match_ Re.rgx_full_name s = None.
Proof.
  intros Hs. unfold Re.match_, Re.rgx_full_name. cbn [Re.exec Nat.eqb].
  apply plus_lazy_no_whitespace; [reflexivity| |exact Hs].
  intros pos c s' Hc. unfold Re.rgx_last_suffix. cbn [Re.exec]. by rewrite Hc.
Qed.

(** ** [str.strip] *)

Lemma rstrip_idem (s : string) : rstrip (rstrip s) = rstrip s.
Proof.
  induction s as [|c s IH]; simpl; [reflexivity|].
  destruct (rstrip s) as [|d r] eqn:Hr.
  - destruct (isspace c) eqn:Hc; simpl; [reflexivity|]. by rewrite Hc.
  - change (rstrip (String c (String d r))) with
      (match rstrip (String d r) with
       | EmptyString => if isspace c then EmptyString else String c EmptyString
       | r' => String c r'
       end).
    by rewrite IH.
Qed.

Lemma lstrip_head (s : string) :
  lstrip s = "" ∨ ∃ c t, lstrip s = String c t ∧ isspace c = false.
Proof.
  induction s as [|c s IH]; simpl; [by left|].
  destruct (isspace c) eqn:Hc; [exact IH|]. right. eauto.
Qed.

Lemma rstrip_head (c : ascii) (t : string) :
  isspace c = false → ∃ r, rstrip (String c t) = String c r.
Proof.
  intros Hc. simpl. destruct (rstrip t); [|eauto]. rewrite Hc. eauto.
Qed.

Lemma strip_idem (s : string) : strip (strip s) = strip s.
Proof.
  unfold strip. destruct (lstrip_head s) as [->|(c & t & -> & Hc)]; [reflexivity|].
  destruct (rstrip_head c t Hc) as [r Hr].
  assert (Hl : lstrip (rstrip (String c t)) = rstrip (String c t)).
  { rewrite Hr. simpl. by rewrite Hc. }
  rewrite Hl. apply rstrip_idem.
Qed.

(** ** [Name] and [create_name_objects] *)

Lemma Name_init_Return (s : string) (n : Name.t) :
  Name.init s = Return n →
  Name.full_name n = strip s ∧ ∃ f, Name.first n = Some f ∧ f ≠ "".
Proof.
  unfold Name.init.
  destruct (Re.match_ Re.rgx_full_name (strip s)) as [m|] eqn:Hm; [|discriminate].
  intros [= <-]. split; [reflexivity|]. exact (full_name_first _ _ Hm).
Qed.

Lemma Name_init_strip (s : string) : Name.init (strip s) = Name.init s.
Proof. unfold Name.init. by rewrite strip_idem. Qed.

Lemma create_name_objects_from_decomposed (names : list string) :
  ∀ s, create_name_objects_from s names = Return (s ++ decomposed names).
Proof.
  induction names as [|name names IH]; intros s.
  - simpl. by rewrite app_nil_r.
  - cbn [create_name_objects_from decomposed omap list_omap].
    destruct (Name.init name) as [n|e]; simpl; rewrite IH.
    + by rewrite <- app_assoc.
    + reflexivity.
Qed.

Lemma elem_of_decomposed (names : list string) (n : Name.t) :
  n ∈ decomposed names ↔ ∃ name, name ∈ names ∧ Name.init name = Return n.
Proof.
  unfold decomposed. rewrite list_elem_of_omap. split.
  - intros (name & Hin & Hsome). exists name. split; [exact Hin|].
    destruct (Name.init name); congruence.
  - intros (name & Hin & Hinit). exists name. split; [exact Hin|]. by rewrite Hinit.
Qed.

Lemma no_whitespace_nil : no_whitespace "".
Proof. intros c Hc. discriminate Hc. Qed.

Lemma no_whitespace_cons (c : ascii) (s : string) :
  isspace c = false → no_whitespace s → no_whitespace (String c s).
Proof.
  intros Hc Hs d Hd. simpl in Hd. apply orb_true_iff in Hd as [Hd|Hd].
  - apply Ascii.eqb_eq in Hd as ->. exact Hc.
  - by apply Hs.
Qed.

(** C8, as stated, fails: the exception a single-token name raises is not
    a [NameFormatError]. *)
Lemma single_token_not_NameFormatError :
  ¬ (∀ s : string,
       no_whitespace (strip s) →
       ∃ e, Name.init s = Raise e ∧ exn_class e = "NameFormatError").
Proof.
  intros H. destruct (H "Nene") as (e & Hinit & Hclass).
  - change (strip "Nene") with "Nene".
    repeat (apply no_whitespace_cons; [reflexivity|]). apply no_whitespace_nil.
  - vm_compute in Hinit. injection Hinit as <-. discriminate Hclass.
Qed.

(** C8, amended: for a string with no whitespace inside (none left once
    the whitespace at its ends is stripped), constructing a [Name] fails,
    with the [AttributeError] of reading a group off the failed match. *)
Theorem single_token_name_fails (s : string) :
  no_whitespace (strip s) → Name.init s = Raise AttributeError.
Proof.
  intros Hs. unfold Name.init.
  by rewrite (full_name_needs_whitespace _ Hs).
Qed.

Lemma single_token_name_fails_witness : Name.init " Nene " = Raise AttributeError.
Proof.
  apply (single_token_name_fails " Nene ").
  change (strip " Nene ") with "Nene".
  repeat (apply no_whitespace_cons; [reflexivity|]). apply no_whitespace_nil.
Defined.

(** ** [AbbreviatedNameWizard] *)

(** The scan over well-formed [Name] objects never raises, and what it
    returns is the full name of one of them. *)
Lemma scan_result (first_init : ascii) (last_name : string) (objs : list Name.t) :
  (∀ n, n ∈ objs → ∃ f, Name.first n = Some f ∧ f ≠ "") →
  AbbreviatedNameWizard.scan first_init last_name objs = Return None ∨
  ∃ n, n ∈ objs ∧
    AbbreviatedNameWizard.scan first_init last_name objs = Return (Some (Name.full_name n)).
Proof.
  induction objs as [|name rest IH]; intros Hobjs; [by left|].
  assert (IH' := IH (fun n Hn => Hobjs n (list_elem_of_further _ _ _ Hn))).
  assert (Hrest :
    AbbreviatedNameWizard.scan first_init last_name rest = Return None ∨
    ∃ n, n ∈ name :: rest ∧
      AbbreviatedNameWizard.scan first_init last_name rest = Return (Some (Name.full_name n))).
  { destruct IH' as [H|(n & Hn & H)]; [by left|right].
    exists n. split; [by apply list_elem_of_further|exact H]. }
  cbn [AbbreviatedNameWizard.scan].
  destruct (bool_decide (Name.last name ≠ Some last_name)); [exact Hrest|].
  destruct (Hobjs name (list_elem_of_here _ _)) as (f & Hf & Hne).
  rewrite Hf. destruct f as [|c f]; [congruence|]. simpl.
  destruct (Ascii.eqb c first_init); [|exact Hrest].
  right. exists name. split; [apply list_elem_of_here|reflexivity].
Qed.

(** The closest name is one of the candidates, if there is any. *)
Lemma closest_name (ref_name : string) (other_names : list string) :
  other_names ≠ [] →
  ∃ best, item0 (name_edit_distances ref_name other_names) = Return best ∧
          best.1 ∈ other_names.
Proof.
  intros Hne. unfold name_edit_distances.
  set (pairs := map (fun name => (name, Nltk.edit_distance name ref_name)) other_names).
  destruct (sort_stable (fun x y => Nat.leb x.2 y.2) pairs) as [|best l] eqn:Hsort.
  - exfalso. pose proof (sort_stable_perm (fun x y => Nat.leb x.2 y.2) pairs) as Hperm.
    rewrite Hsort in Hperm. apply Permutation_nil_l in Hperm.
    destruct other_names; [congruence|discriminate Hperm].
  - exists best. split; [reflexivity|].
    assert (Hin : best ∈ pairs).
    { apply (elem_of_sort_stable (fun x y => Nat.leb x.2 y.2)). rewrite Hsort.
      apply list_elem_of_here. }
    apply list_elem_of_fmap in Hin as (name & -> & Hin). exact Hin.
Qed.

Lemma wizard_init (universe : list string) :
  AbbreviatedNameWizard.init universe =
  Return (AbbreviatedNameWizard.Make universe (decomposed universe) ∅).
Proof.
  unfold AbbreviatedNameWizard.init, create_name_objects.
  by rewrite create_name_objects_from_decomposed.
Qed.

Lemma get_first_init_last_name_cons (c : ascii) (rest : string) :
  AbbreviatedNameWizard.get_first_init_last_name (String c rest) =
  Return (c, str_from 3 (String c rest)).
Proof. reflexivity. Qed.

(** The two ways [full_name] returns, for a non-empty abbreviation and a
    non-empty universe: a scan hit leaves the wizard as it was, the
    fallback logs what it returns. *)
Lemma full_name_cases (universe : list string) (used : gmap string string)
    (abbrev : string) :
  universe ≠ [] → abbrev ≠ "" →
  let self := AbbreviatedNameWizard.Make universe (decomposed universe) used in
  (∃ n, n ∈ decomposed universe ∧
        AbbreviatedNameWizard.full_name self abbrev = (self, Return (Name.full_name n))) ∨
  (∃ r, r ∈ universe ∧
        AbbreviatedNameWizard.full_name self abbrev =
          (AbbreviatedNameWizard.Make universe (decomposed universe) (<[abbrev := r]> used),
           Return r)).
Proof.
  intros Huniv Habbrev self. unfold AbbreviatedNameWizard.full_name.
  destruct abbrev as [|c rest]; [congruence|].
  rewrite get_first_init_last_name_cons, bind_Return.
  unfold self.
  cbn [AbbreviatedNameWizard.name_objs AbbreviatedNameWizard.raw_names
       AbbreviatedNameWizard.used_levenshtein].
  destruct (scan_result c (str_from 3 (String c rest)) (decomposed universe))
    as [Hscan|(n & Hn & Hscan)].
  - intros n Hn. apply elem_of_decomposed in Hn as (name & _ & Hinit).
    exact (proj2 (Name_init_Return _ _ Hinit)).
  - rewrite Hscan. right.
    destruct (closest_name (String c rest) universe Huniv) as (best & Hbest & Hin).
    rewrite Hbest. exists best.1. split; [exact Hin|reflexivity].
  - rewrite Hscan. left. exists n. split; [exact Hn|reflexivity].
Qed.

(** C4, as stated, fails: a scan hit returns the stripped form of the
    universe entry, which need not be an entry itself. *)
Lemma full_name_not_in_universe :
  ¬ (∀ (universe : list string) (abbrev : string) (self : AbbreviatedNameWizard.t),
       universe ≠ [] → (4 ≤ String.length abbrev)%nat →
       AbbreviatedNameWizard.init universe = Return self →
       ∃ self' r,
         AbbreviatedNameWizard.full_name self abbrev = (self', Return r) ∧ r ∈ universe).
Proof.
  intros H.
  destruct (H [" John Smith"] "J. Smith" _ ltac:(discriminate) ltac:(simpl; lia)
              (wizard_init _))
    as (self' & r & Hrun & Hin).
  vm_compute in Hrun. injection Hrun as _ <-.
  apply list_elem_of_singleton in Hin. discriminate Hin.
Qed.

(** C4, amended: for a non-empty universe and an abbreviation of at least
    4 characters, constructing the wizard succeeds and [full_name], after
    any earlier calls, returns without raising either an entry of the
    universe or the stripped form of one. *)
Theorem full_name_returns (universe : list string) (abbrev : string) :
  universe ≠ [] → (4 ≤ String.length abbrev)%nat →
  ∃ self,
    AbbreviatedNameWizard.init universe = Return self ∧
    ∀ used : gmap string string,
      ∃ self' r,
        AbbreviatedNameWizard.full_name
          (AbbreviatedNameWizard.Make (AbbreviatedNameWizard.raw_names self)
             (AbbreviatedNameWizard.name_objs self) used) abbrev
        = (self', Return r) ∧
        ∃ u, u ∈ universe ∧ (r = u ∨ r = strip u).
Proof.
  intros Huniv Hlen. eexists. split; [apply wizard_init|]. intros used. simpl.
  assert (Habbrev : abbrev ≠ "") by (intros ->; simpl in Hlen; lia).
  destruct (full_name_cases universe used abbrev Huniv Habbrev)
    as [(n & Hn & Hrun)|(r & Hr & Hrun)]; rewrite Hrun.
  - apply elem_of_decomposed in Hn as (u & Hu & Hinit).
    apply Name_init_Return in Hinit as [Hfull _].
    eexists _, _. split; [reflexivity|]. exists u. split; [exact Hu|by right].
  - eexists _, _. split; [reflexivity|]. exists r. split; [exact Hr|by left].
Qed.

Lemma full_name_returns_witness :
  ∃ self,
    AbbreviatedNameWizard.init [" John Smith"; "Nene"] = Return self ∧
    ∀ used : gmap string string,
      ∃ self' r,
        AbbreviatedNameWizard.full_name
          (AbbreviatedNameWizard.Make (AbbreviatedNameWizard.raw_names self)
             (AbbreviatedNameWizard.name_objs self) used) "J. Smith"
        = (self', Return r) ∧
        ∃ u, u ∈ [" John Smith"; "Nene"] ∧ (r = u ∨ r = strip u).
Proof.
  apply (full_name_returns [" John Smith"; "Nene"] "J. Smith").
  - discriminate.
  - simpl. lia.
Defined.

(** C10: constructing the wizard succeeds for every universe list; the
    universe is kept whole as [raw_names], the candidates of the fallback,
    while [name_objs] holds exactly the [Name] objects of the entries that
    decompose; and when [full_name] returns an entry that does not
    decompose, it did so through the fallback, which logged it in
    [used_levenshtein]. *)
Theorem wizard_keeps_undecomposed (universe : list string) :
  ∃ self,
    AbbreviatedNameWizard.init universe = Return self ∧
    AbbreviatedNameWizard.raw_names self = universe ∧
    AbbreviatedNameWizard.name_objs self = decomposed universe ∧
    (∀ n, n ∈ AbbreviatedNameWizard.name_objs self ↔
          ∃ u, u ∈ universe ∧ Name.init u = Return n) ∧
    ∀ (e abbrev : string) (used : gmap string string) (self' : AbbreviatedNameWizard.t),
      (∀ n, Name.init e ≠ Return n) →
      AbbreviatedNameWizard.full_name
        (AbbreviatedNameWizard.Make (AbbreviatedNameWizard.raw_names self)
           (AbbreviatedNameWizard.name_objs self) used) abbrev
      = (self', Return e) →
      e ∈ universe ∧
      AbbreviatedNameWizard.used_levenshtein self' = <[abbrev := e]> used.
Proof.
  eexists. split; [apply wizard_init|]. simpl.
  split; [reflexivity|]. split; [reflexivity|]. split; [apply elem_of_decomposed|].
  intros e abbrev used self' He Hrun.
  destruct abbrev as [|c rest]; [discriminate Hrun|].
  destruct universe as [|u0 universe]; [discriminate Hrun|].
  destruct (full_name_cases (u0 :: universe) used (String c rest))
    as [(n & Hn & Hrun')|(r & Hr & Hrun')]; [discriminate|discriminate| |];
    rewrite Hrun' in Hrun.
  - exfalso. injection Hrun as _ Hfull.
    apply elem_of_decomposed in Hn as (u & Hu & Hinit).
    apply (He n). rewrite <- Hfull.
    destruct (Name_init_Return _ _ Hinit) as [-> _].
    by rewrite Name_init_strip.
  - injection Hrun as <- <-. split; [exact Hr|reflexivity].
Qed.

Lemma wizard_keeps_undecomposed_witness :
  ∃ self,
    AbbreviatedNameWizard.init ["Nene"; "Jon Smyth"] = Return self ∧
    AbbreviatedNameWizard.name_objs self =
      [Name.Make "Jon Smyth" (Some "Jon") (Some "Smyth") None] ∧
    ∃ self',
      AbbreviatedNameWizard.full_name self "N. Nene" = (self', Return "Nene") ∧
      AbbreviatedNameWizard.used_levenshtein self' = {[ "N. Nene" := "Nene" ]}.
Proof.
  destruct (wizard_keeps_undecomposed ["Nene"; "Jon Smyth"])
    as (self & Hinit & Hraw & Hobjs & _ & Hfallback).
  exists self. split; [exact Hinit|]. split; [rewrite Hobjs; vm_compute; reflexivity|].
  rewrite wizard_init in Hinit. injection Hinit as <-.
  eexists. split; [vm_compute; reflexivity|].
  refine (proj2 (Hfallback "Nene" "N. Nene" ∅ _ _ _)).
  - intros n Hn. vm_compute in Hn. discriminate Hn.
  - vm_compute. reflexivity.
Defined.

(** ** [MostSimilarNameWizard] *)

Lemma break_down_CJ_Smith :
  MostSimilarNameWizard.break_down_name_components "C.J. Smith" =
  Return (Some "C.J.", Some "Smith", None).
Proof. vm_compute. reflexivity. Qed.

Lemma is_match_CJ :
  MostSimilarNameWizard.is_match Re.rgx_abbr_no_periods "C.J." = false ∧
  MostSimilarNameWizard.is_match Re.rgx_abbr_periods "C.J." = true.
Proof. vm_compute. split; reflexivity. Qed.

(** C5, as stated, fails: when the universe holds the input itself next to
    "CJ Smith", the input is returned. *)
Lemma solve_returns_input_first :
  ¬ (∀ self : MostSimilarNameWizard.t,
       "CJ Smith" ∈ MostSimilarNameWizard.universe self →
       MostSimilarNameWizard.solve self "C.J. Smith" = Return "CJ Smith").
Proof.
  intros H.
  specialize (H (MostSimilarNameWizard.Make ["C.J. Smith"; "CJ Smith"] [])).
  assert (Hin : "CJ Smith" ∈ ["C.J. Smith"; "CJ Smith"]) by set_solver.
  specialize (H Hin). vm_compute in H. discriminate H.
Qed.

(** C5, amended: on the input "C.J. Smith", with a universe that does not
    hold the input itself and whatever the alias table is, [solve] returns
    "CJ Smith" when the universe holds it, and otherwise raises
    [PMissingError] from the rule for initials with periods, so no later
    rule is tried. *)
Theorem solve_CJ_Smith (self : MostSimilarNameWizard.t) :
  "C.J. Smith" ∉ MostSimilarNameWizard.universe self →
  ("CJ Smith" ∈ MostSimilarNameWizard.universe self →
   MostSimilarNameWizard.solve self "C.J. Smith" = Return "CJ Smith") ∧
  ("CJ Smith" ∉ MostSimilarNameWizard.universe self →
   MostSimilarNameWizard.solve self "C.J. Smith" =
     Raise (PMissingError ["solve"; "C.J. Smith"])).
Proof.
  intros Hinput.
  assert (Hsolve :
    MostSimilarNameWizard.solve self "C.J. Smith" =
    if MostSimilarNameWizard.in_universe self "CJ Smith" then Return "CJ Smith"
    else Raise (MostSimilarNameWizard.missing "C.J. Smith")).
  { unfold MostSimilarNameWizard.solve.
    unfold MostSimilarNameWizard.in_universe at 1.
    rewrite (bool_decide_eq_false_2 _ Hinput).
    rewrite break_down_CJ_Smith, bind_Return.
    cbn [not_none]. rewrite bind_Return.
    destruct is_match_CJ as [-> ->]. rewrite bind_Return. reflexivity. }
  rewrite Hsolve. unfold MostSimilarNameWizard.in_universe. split; intros Hcj.
  - by rewrite (bool_decide_eq_true_2 _ Hcj).
  - by rewrite (bool_decide_eq_false_2 _ Hcj).
Qed.

Lemma solve_CJ_Smith_witness :
  MostSimilarNameWizard.solve
    (MostSimilarNameWizard.Make ["Al Horford"; "CJ Smith"] []) "C.J. Smith"
  = Return "CJ Smith" ∧
  AliasWizard.get_aliases [("Chris", "C.J.")] "C.J." = Some ["Chris"] ∧
  MostSimilarNameWizard.solve
    (MostSimilarNameWizard.Make ["Chris Smith"] [("Chris", "C.J.")]) "C.J. Smith"
  = Raise (PMissingError ["solve"; "C.J. Smith"]).
Proof.
  split; [|split].
  - apply (solve_CJ_Smith (MostSimilarNameWizard.Make ["Al Horford"; "CJ Smith"] [])).
    + simpl. intros Hin. repeat (apply elem_of_cons in Hin as [Hin|Hin]; [discriminate Hin|]).
      by apply elem_of_nil in Hin.
    + simpl. apply list_elem_of_further, list_elem_of_here.
  - vm_compute. reflexivity.
  - apply (solve_CJ_Smith (MostSimilarNameWizard.Make ["Chris Smith"] [("Chris", "C.J.")]));
      simpl; intros Hin;
      (repeat (apply elem_of_cons in Hin as [Hin|Hin]; [discriminate Hin|]));
      by apply elem_of_nil in Hin.
Defined.

(** * Further properties *)

(** ** [NameConverter] and its callers *)

(** X1: [clean] never touches the three reference collections nor the
    strictness flag; [unhandled_names] only grows, by the cleaned name at
    most; a call that returns a name leaves the converter as it was; and
    [clean] raises only in strict mode. *)
Theorem clean_frame (self : NameConverter.t) (name : string) :
  let self' := (NameConverter.clean self name).1 in
  let r := (NameConverter.clean self name).2 in
  NameConverter.known_pairs self' = NameConverter.known_pairs self ∧
  NameConverter.known_missing self' = NameConverter.known_missing self ∧
  NameConverter.known self' = NameConverter.known self ∧
  NameConverter.raise_exc self' = NameConverter.raise_exc self ∧
  NameConverter.unhandled_names self ⊆ NameConverter.unhandled_names self' ∧
  NameConverter.unhandled_names self' ⊆ {[name]} ∪ NameConverter.unhandled_names self ∧
  (∀ new, r = Return (Some new) → self' = self) ∧
  (∀ e, r = Raise e → NameConverter.raise_exc self = true).
Proof.
  unfold NameConverter.clean.
  destruct (NameConverter.known_pairs self !! name) as [new|]; simpl.
  { repeat split; try set_solver; discriminate. }
  destruct (bool_decide (name ∈ NameConverter.known_missing self)
            || bool_decide (name ∈ NameConverter.known self)); simpl.
  { repeat split; try set_solver; discriminate. }
  destruct (NameConverter.raise_exc self) eqn:Hraise; simpl;
    repeat split; try set_solver; try discriminate; auto.
Qed.

(** X2: a name that is in none of the three collections is recorded in
    [unhandled_names], after which [some_names_missing] holds; the call
    raises [PMissingError] in strict mode and returns [None] otherwise. *)
Theorem clean_unrecognised (self : NameConverter.t) (name : string) :
  NameConverter.known_pairs self !! name = None →
  name ∉ NameConverter.known_missing self →
  name ∉ NameConverter.known self →
  let self' := (NameConverter.clean self name).1 in
  name ∈ NameConverter.unhandled_names self' ∧
  NameConverter.some_names_missing self' = true ∧
  (NameConverter.clean self name).2 =
    if NameConverter.raise_exc self
    then Raise (PMissingError
                  ["clean"; name;
                   name +:+ " not found in data, associated pairs, or known to be missing."])
    else Return None.
Proof.
  intros Hpairs Hmissing Hknown. unfold NameConverter.clean. rewrite Hpairs.
  rewrite (bool_decide_eq_false_2 _ Hmissing), (bool_decide_eq_false_2 _ Hknown). simpl.
  assert (Hin : name ∈ {[name]} ∪ NameConverter.unhandled_names self) by set_solver.
  assert (Hsome : NameConverter.some_names_missing
            (NameConverter.Make (NameConverter.known_pairs self)
               (NameConverter.known_missing self) (NameConverter.known self)
               ({[name]} ∪ NameConverter.unhandled_names self)
               (NameConverter.raise_exc self)) = true).
  { unfold NameConverter.some_names_missing. simpl.
    apply negb_true_iff, Nat.eqb_neq. intros Hsize.
    apply size_empty_inv in Hsize. set_solver. }
  destruct (NameConverter.raise_exc self); simpl; auto.
Qed.

Lemma clean_unrecognised_witness :
  let self := NameConverter.init {[ "Lou Williams" := "Louis Williams" ]}
                ∅ {[ "Louis Williams" ]} [] false true in
  "Luis Williams" ∈ NameConverter.unhandled_names (NameConverter.clean self "Luis Williams").1.
Proof.
  intros self.
  apply (clean_unrecognised self "Luis Williams"); [reflexivity| |]; unfold self; simpl;
    set_solver.
Defined.

(** X3: [is_problematic] and [clean] agree: the flag is [False] exactly
    for an unpaired name that [clean] returns unchanged, and it is [True]
    exactly when the name has a pairing or [clean] returns no name. *)
Theorem is_problematic_agrees_with_clean (self : NameConverter.t) (name : string) :
  ∃ reason,
    ((NameConverter.is_problematic self name).2 = Return (false, reason) ∧
     NameConverter.known_pairs self !! name = None ∧
     NameConverter.clean self name = (self, Return (Some name))) ∨
    ((NameConverter.is_problematic self name).2 = Return (true, reason) ∧
     (is_Some (NameConverter.known_pairs self !! name) ∨
      ∀ new, (NameConverter.clean self name).2 ≠ Return (Some new))).
Proof.
  unfold NameConverter.is_problematic, NameConverter.clean.
  destruct (NameConverter.known_pairs self !! name) as [new|] eqn:Hpairs.
  { eexists. right. split; [reflexivity|]. left. eauto. }
  destruct (bool_decide (name ∈ NameConverter.known_missing self)); simpl.
  { eexists. left. auto. }
  destruct (bool_decide (name ∈ NameConverter.known self)); simpl.
  { eexists. left. auto. }
  eexists. right. split; [reflexivity|]. right. intros new.
  destruct (NameConverter.raise_exc self); discriminate.
Qed.

(** X4: with [excl_teams] every team representation is a known name, and
    the names loaded from the player table stay known; without it the
    known names are the loaded ones. A fresh converter has no unhandled
    name. *)
Theorem init_known_names (pairs : gmap string string) (missing names : gset string)
    (teams : list string) (raise_exc : bool) :
  (∀ n, n ∈ NameConverter.known (NameConverter.init pairs missing names teams true raise_exc)
        ↔ n ∈ names ∨ n ∈ teams) ∧
  NameConverter.known (NameConverter.init pairs missing names teams false raise_exc) = names ∧
  ∀ excl_teams,
    NameConverter.some_names_missing
      (NameConverter.init pairs missing names teams excl_teams raise_exc) = false.
Proof.
  split; [|split; [reflexivity|reflexivity]].
  unfold NameConverter.init; simpl. revert names.
  induction teams as [|t teams IH]; intros names n; simpl.
  - rewrite elem_of_nil. tauto.
  - rewrite IH, elem_of_cons. set_solver.
Qed.

(** X5: with a strict converter, [convert_name] never raises and never
    returns [None]: it returns the pairing of the name when there is one
    and the name itself otherwise. *)
Theorem convert_name_strict (name_converter : NameConverter.t) (name : string) :
  NameConverter.raise_exc name_converter = true →
  (Bigdataball.convert_name name_converter name).2 =
    Return (Some (default name (NameConverter.known_pairs name_converter !! name))).
Proof.
  intros Hstrict. unfold Bigdataball.convert_name, NameConverter.clean.
  destruct (NameConverter.known_pairs name_converter !! name) as [new|]; [reflexivity|].
  destruct (bool_decide (name ∈ NameConverter.known_missing name_converter)
            || bool_decide (name ∈ NameConverter.known name_converter));
    [reflexivity|].
  simpl. rewrite Hstrict. reflexivity.
Qed.

Lemma convert_name_strict_witness :
  let c := NameConverter.init {[ "Lou Williams" := "Louis Williams" ]}
             ∅ {[ "Louis Williams" ]} [] false true in
  (Bigdataball.convert_name c "Lou Williams").2 = Return (Some "Louis Williams") ∧
  (Bigdataball.convert_name c "Luis Williams").2 = Return (Some "Luis Williams").
Proof.
  intros c. split.
  - apply (convert_name_strict c "Lou Williams"). reflexivity.
  - exact (convert_name_strict c "Luis Williams" eq_refl).
Defined.

(** ** [unique] and the stable sort *)

Section UniqueFacts.
Context {A : Type} `{EqDecision A}.

Lemma elem_of_unique_from (l : list A) :
  ∀ seen x, x ∈ unique_from seen l ↔ x ∈ l ∧ x ∉ seen.
Proof.
  induction l as [|y l IH]; intros seen x; simpl.
  - rewrite elem_of_nil. tauto.
  - destruct (bool_decide_reflect (y ∈ seen)) as [Hy|Hy].
    + rewrite IH, elem_of_cons. split; [tauto|].
      intros [[->|Hx] Hseen]; [contradiction|tauto].
    + rewrite elem_of_cons, IH, !elem_of_cons.
      destruct (decide (x = y)) as [->|Hne]; [tauto|]. tauto.
Qed.

Lemma NoDup_unique_from (l : list A) : ∀ seen, NoDup (unique_from seen l).
Proof.
  induction l as [|y l IH]; intros seen; simpl; [constructor|].
  destruct (bool_decide (y ∈ seen)); [apply IH|].
  constructor; [|apply IH].
  rewrite elem_of_unique_from, elem_of_cons. tauto.
Qed.

Lemma elem_of_unique (l : list A) (x : A) : x ∈ unique l ↔ x ∈ l.
Proof. unfold unique. rewrite elem_of_unique_from, elem_of_nil. tauto. Qed.

Lemma NoDup_unique (l : list A) : NoDup (unique l).
Proof. apply NoDup_unique_from. Qed.

Lemma unique_nil_inv (l : list A) : unique l = [] → l = [].
Proof.
  destruct l as [|x l]; [reflexivity|]. intros Hnil.
  assert (Hx : x ∈ unique (x :: l)) by (apply elem_of_unique, list_elem_of_here).
  rewrite Hnil in Hx. by apply elem_of_nil in Hx.
Qed.
End UniqueFacts.

Section SortKeyFacts.
Context {A : Type} (key : A → nat).

Let le (x y : A) : bool := Nat.leb (key x) (key y).
Let R (x y : A) : Prop := (key x ≤ key y)%nat.

Lemma insert_sorted_StronglySorted (x : A) (l : list A) :
  StronglySorted R l → StronglySorted R (insert_sorted le x l).
Proof.
  induction 1 as [|y l Hl IH Hy]; simpl; [repeat constructor|].
  unfold le at 1. destruct (Nat.leb_spec (key x) (key y)) as [Hxy|Hxy].
  - constructor; [by constructor|].
    constructor; [exact Hxy|].
    eapply Forall_impl; [exact Hy|]. intros z Hz. unfold R in *. lia.
  - constructor; [exact IH|].
    rewrite (insert_sorted_perm le x l). constructor; [unfold R; lia|exact Hy].
Qed.

Lemma sort_stable_StronglySorted (l : list A) :
  StronglySorted R (sort_stable le l).
Proof.
  induction l as [|x l IH]; simpl; [constructor|].
  by apply insert_sorted_StronglySorted.
Qed.

(** Stability: the elements of one key keep their order. *)
Lemma insert_sorted_filter_key (d : nat) (x : A) (l : list A) :
  StronglySorted R l →
  filter (fun y => key y = d) (insert_sorted le x l) = filter (fun y => key y = d) (x :: l).
Proof.
  induction 1 as [|y l Hl IH Hy]; [reflexivity|]. simpl.
  unfold le at 1. destruct (Nat.leb_spec (key x) (key y)) as [Hxy|Hxy]; [reflexivity|].
  rewrite (filter_cons _ y), IH, !(filter_cons _ x), (filter_cons _ y).
  destruct (decide (key x = d)) as [Hx|Hx]; [|reflexivity].
  destruct (decide (key y = d)) as [Hy'|Hy']; [lia|reflexivity].
Qed.

Lemma sort_stable_filter_key (d : nat) (l : list A) :
  filter (fun y => key y = d) (sort_stable le l) = filter (fun y => key y = d) l.
Proof.
  induction l as [|x l IH]; [reflexivity|]. simpl.
  rewrite insert_sorted_filter_key by apply sort_stable_StronglySorted.
  by rewrite !(filter_cons _ x), IH.
Qed.
End SortKeyFacts.

(** ** [AliasWizard] *)

(** X6: [get_aliases] returns [None] exactly when [has_aliases] is
    [False], that is when the name is in neither column of the sheet. *)
Theorem get_aliases_None (df : AliasWizard.t) (name : string) :
  (AliasWizard.get_aliases df name = None ↔ AliasWizard.has_aliases df name = false) ∧
  (AliasWizard.has_aliases df name = true ↔
   ∃ other, (name, other) ∈ df ∨ (other, name) ∈ df).
Proof.
  unfold AliasWizard.get_aliases, AliasWizard.has_aliases. split.
  - destruct (bool_decide (name ∈ df.*1)); simpl; [split; discriminate|].
    destruct (bool_decide (name ∈ df.*2)); simpl; [split; discriminate|tauto].
  - rewrite orb_true_iff, !bool_decide_eq_true, !list_elem_of_fmap. split.
    + intros [([a b] & -> & Hin)|([a b] & -> & Hin)]; simpl; eauto.
    + intros (other & [Hin|Hin]); [left|right]; eexists; (split; [|exact Hin]); reflexivity.
Qed.

(** X7: the lookup works in both directions, a regular name first: for a
    name of the [name] column the result is its nicknames, otherwise for a
    name of the [nickname] column it is the regular names it stands for;
    the result has no repeats and is never empty. *)
Theorem get_aliases_Some (df : AliasWizard.t) (name : string) (aliases : list string) :
  AliasWizard.get_aliases df name = Some aliases →
  NoDup aliases ∧ aliases ≠ [] ∧
  ((name ∈ df.*1 ∧ ∀ a, a ∈ aliases ↔ (name, a) ∈ df) ∨
   ((name ∉ df.*1) ∧ ∀ a, a ∈ aliases ↔ (a, name) ∈ df)).
Proof.
  unfold AliasWizard.get_aliases.
  assert (Hnicks : ∀ a, a ∈ unique (filter (fun r : string * string => r.1 = name) df).*2
                        ↔ (name, a) ∈ df).
  { intros a. rewrite elem_of_unique, list_elem_of_fmap. split.
    - intros ([n b] & -> & Hin). apply list_elem_of_filter in Hin as [Hn Hin].
      simpl in *. by subst.
    - intros Hin. exists (name, a). split; [reflexivity|].
      by apply list_elem_of_filter. }
  assert (Hnames : ∀ a, a ∈ unique (filter (fun r : string * string => r.2 = name) df).*1
                        ↔ (a, name) ∈ df).
  { intros a. rewrite elem_of_unique, list_elem_of_fmap. split.
    - intros ([n b] & -> & Hin). apply list_elem_of_filter in Hin as [Hn Hin].
      simpl in *. by subst.
    - intros Hin. exists (a, name). split; [reflexivity|].
      by apply list_elem_of_filter. }
  destruct (bool_decide_reflect (name ∈ df.*1)) as [H1|H1].
  - intros [= <-]. split; [apply NoDup_unique|]. split.
    + apply list_elem_of_fmap in H1 as ([n a] & -> & Hin). simpl in *.
      intros Hnil. apply Hnicks in Hin. rewrite Hnil in Hin. by apply elem_of_nil in Hin.
    + left. split; [exact H1|exact Hnicks].
  - destruct (bool_decide_reflect (name ∈ df.*2)) as [H2|H2]; [|discriminate].
    intros [= <-]. split; [apply NoDup_unique|]. split.
    + apply list_elem_of_fmap in H2 as ([a n] & -> & Hin). simpl in *.
      intros Hnil. apply Hnames in Hin. rewrite Hnil in Hin. by apply elem_of_nil in Hin.
    + right. split; [exact H1|exact Hnames].
Qed.

Lemma get_aliases_Some_witness :
  let df := [("Christopher", "Chris"); ("William", "Bill"); ("William", "Will");
             ("Bill", "Billy")] in
  NoDup ["Bill"; "Will"] ∧
  (∀ a, a ∈ ["William"] ↔ (a, "Will") ∈ df).
Proof.
  intros df.
  destruct (get_aliases_Some df "William" ["Bill"; "Will"] eq_refl) as (Hdup & _ & _).
  destruct (get_aliases_Some df "Will" ["William"] eq_refl) as (_ & _ & [[Hin _]|[_ Hnames]]).
  - exfalso. vm_compute in Hin.
    repeat (apply elem_of_cons in Hin as [Hin|Hin]; [discriminate Hin|]).
    by apply elem_of_nil in Hin.
  - split; [exact Hdup|exact Hnames].
Defined.

(** ** [name_edit_distances] *)

Lemma filter_snd_pairs (f : string → nat) (d : nat) (l : list string) :
  (filter (fun x : string * nat => x.2 = d) (map (fun name => (name, f name)) l)).*1 =
  filter (fun name => f name = d) l.
Proof.
  induction l as [|name l IH]; [reflexivity|].
  cbn [map]. rewrite (filter_cons _ (name, f name)), (filter_cons _ name). cbn [snd].
  destruct (decide (f name = d)); [|exact IH].
  rewrite fmap_cons. cbn [fst]. f_equal. exact IH.
Qed.

(** X8: [name_edit_distances] pairs every name of [other_names] with its
    distance to [ref_name], keeps as many pairs as there are names, orders
    them by non-decreasing distance with names of equal distance in the
    order of [other_names], so that the first pair carries the shortest
    distance. *)
Theorem name_edit_distances_sorted (ref_name : string) (other_names : list string) :
  let s := name_edit_distances ref_name other_names in
  s ≡ₚ map (fun name => (name, Nltk.edit_distance name ref_name)) other_names ∧
  length s = length other_names ∧
  StronglySorted (fun x y : string * nat => (x.2 ≤ y.2)%nat) s ∧
  (∀ d, (filter (fun x : string * nat => x.2 = d) s).*1 =
        filter (fun name => Nltk.edit_distance name ref_name = d) other_names) ∧
  (∀ best rest name, s = best :: rest → name ∈ other_names →
     (best.2 ≤ Nltk.edit_distance name ref_name)%nat).
Proof.
  intros s. unfold s, name_edit_distances.
  set (pairs := map (fun name => (name, Nltk.edit_distance name ref_name)) other_names).
  pose proof (sort_stable_perm (fun x y : string * nat => Nat.leb x.2 y.2) pairs) as Hperm.
  pose proof (sort_stable_StronglySorted (snd : string * nat → nat) pairs) as Hsorted.
  split; [exact Hperm|]. split.
  { rewrite Hperm. unfold pairs. apply length_map. }
  split; [exact Hsorted|]. split.
  { intros d. rewrite (sort_stable_filter_key (snd : string * nat → nat) d pairs).
    apply filter_snd_pairs. }
  intros best rest name Hs Hname.
  assert (Hin : (name, Nltk.edit_distance name ref_name)
                ∈ sort_stable (fun x y : string * nat => Nat.leb x.2 y.2) pairs).
  { rewrite Hperm. unfold pairs. apply list_elem_of_fmap. eauto. }
  fold pairs in Hs. rewrite Hs in Hin, Hsorted.
  apply StronglySorted_inv in Hsorted as [_ Hall].
  apply elem_of_cons in Hin as [<-|Hin]; [reflexivity|].
  rewrite Forall_forall in Hall. exact (Hall _ Hin).
Qed.

(** ** The decomposition of a full name *)

Lemma substring_str_from (n : nat) (s : string) :
  substring 0 n s +:+ str_from n s = s.
Proof.
  revert s. induction n as [|n IH]; intros [|c s]; simpl; try reflexivity.
  change (String c (substring 0 n s +:+ str_from n s) = String c s).
  f_equal. apply IH.
Qed.

Section RunFacts.
Context {R : Type} (p : ascii → bool) (k : nat → string → option R).

(** What a repetition took: a non-empty run of characters of its class. *)
Lemma plus_lazy_run (s : string) :
  ∀ (pos : nat) (m : R),
    Re.plus_lazy p k pos s = Some m →
    ∃ n, 0 < n ∧ substring 0 n s ≠ "" ∧
         (∀ c, contains c (substring 0 n s) = true → p c = true) ∧
         k (pos + n) (str_from n s) = Some m.
Proof.
  induction s as [|c s IH]; intros pos m; simpl; [discriminate|].
  destruct (p c) eqn:Hc; [|discriminate].
  destruct (k (S pos) s) as [m'|] eqn:Hk.
  - intros [= <-]. exists 1. split; [lia|]. split; [discriminate|]. split.
    + intros d. simpl. destruct s; simpl; rewrite orb_false_r;
        intros Hd; apply Ascii.eqb_eq in Hd as ->; exact Hc.
    + replace (pos + 1) with (S pos) by lia. exact Hk.
  - intros Hrec. apply IH in Hrec as (n & Hn & _ & Hrun & Hk').
    exists (S n). split; [lia|]. split; [discriminate|]. split.
    + intros d. simpl. rewrite orb_true_iff. intros [Hd|Hd].
      * apply Ascii.eqb_eq in Hd as ->. exact Hc.
      * by apply Hrun.
    + replace (pos + S n) with (S pos + n) by lia. exact Hk'.
Qed.

Lemma plus_greedy_run (s : string) :
  ∀ (pos : nat) (m : R),
    Re.plus_greedy p k pos s = Some m →
    ∃ n, 0 < n ∧ substring 0 n s ≠ "" ∧
         (∀ c, contains c (substring 0 n s) = true → p c = true) ∧
         k (pos + n) (str_from n s) = Some m.
Proof.
  induction s as [|c s IH]; intros pos m; simpl; [discriminate|].
  destruct (p c) eqn:Hc; [|discriminate].
  destruct (Re.plus_greedy p k (S pos) s) as [m'|] eqn:Hrec.
  - intros [= <-]. apply IH in Hrec as (n & Hn & _ & Hrun & Hk').
    exists (S n). split; [lia|]. split; [discriminate|]. split.
    + intros d. simpl. rewrite orb_true_iff. intros [Hd|Hd].
      * apply Ascii.eqb_eq in Hd as ->. exact Hc.
      * by apply Hrun.
    + replace (pos + S n) with (S pos + n) by lia. exact Hk'.
  - intros Hk. exists 1. split; [lia|]. split; [discriminate|]. split.
    + intros d. simpl. destruct s; simpl; rewrite orb_false_r;
        intros Hd; apply Ascii.eqb_eq in Hd as ->; exact Hc.
    + replace (pos + 1) with (S pos) by lia. exact Hk.
Qed.
End RunFacts.

(** Inversion of a match, one construct at a time. *)
Section ExecInversion.
Context (pos : nat) (s : string) (g : Re.groups)
        (k : nat → string → Re.groups → option Re.groups) (m : Re.groups).

Lemma exec_Set_Some (p : ascii → bool) :
  Re.exec (Re.Set_ p) pos s g k = Some m →
  ∃ c s', s = String c s' ∧ p c = true ∧ k (S pos) s' g = Some m.
Proof.
  cbn [Re.exec]. destruct s as [|c s']; [discriminate|].
  destruct (p c) eqn:Hc; [|discriminate]. eauto.
Qed.

Lemma exec_Cat_Set_Some (p : ascii → bool) (r : Re.regex) :
  Re.exec (Re.Cat (Re.Set_ p) r) pos s g k = Some m →
  ∃ c s', s = String c s' ∧ p c = true ∧ Re.exec r (S pos) s' g k = Some m.
Proof.
  cbn [Re.exec]. destruct s as [|c s']; [discriminate|].
  destruct (p c) eqn:Hc; [|discriminate]. eauto.
Qed.

Lemma exec_Opt_Some (r : Re.regex) :
  Re.exec (Re.Opt r) pos s g k = Some m →
  Re.exec r pos s g k = Some m ∨ k pos s g = Some m.
Proof.
  cbn [Re.exec]. destruct (Re.exec r pos s g k); [intros [= <-]; by left|by right].
Qed.

Lemma exec_Cat_Opt_Some (r1 r2 : Re.regex) :
  Re.exec (Re.Cat (Re.Opt r1) r2) pos s g k = Some m →
  Re.exec (Re.Cat r1 r2) pos s g k = Some m ∨ Re.exec r2 pos s g k = Some m.
Proof.
  cbn [Re.exec].
  destruct (Re.exec r1 pos s g _); [intros [= <-]; by left|by right].
Qed.

Lemma exec_Alt_Some (r1 r2 : Re.regex) :
  Re.exec (Re.Alt r1 r2) pos s g k = Some m →
  Re.exec r1 pos s g k = Some m ∨ Re.exec r2 pos s g k = Some m.
Proof.
  cbn [Re.exec]. destruct (Re.exec r1 pos s g k); [intros [= <-]; by left|by right].
Qed.

Lemma exec_Eos_Some :
  Re.exec Re.Eos pos s g k = Some m →
  (s = "" ∨ s = String Re.newline "") ∧ k pos s g = Some m.
Proof.
  cbn [Re.exec]. destruct s as [|c [|d s']]; [by auto| |discriminate].
  destruct (Ascii.eqb_spec c Re.newline) as [->|]; [by auto|discriminate].
Qed.
End ExecInversion.

Lemma J_or_S_true (c : ascii) : Re.J_or_S c = true → c = "J"%char ∨ c = "S"%char.
Proof.
  unfold Re.J_or_S. rewrite orb_true_iff, !Ascii.eqb_eq. tauto.
Qed.

(** The suffix alternatives take one of the eight suffixes off the front
    of the string. *)
Lemma exec_suffix_Some (pos : nat) (s : string) (g : Re.groups)
    (k : nat → string → Re.groups → option Re.groups) (m : Re.groups) :
  Re.exec Re.rgx_suffix pos s g k = Some m →
  ∃ sfx rest, sfx ∈ suffixes ∧ s = sfx +:+ rest ∧
              k (pos + String.length sfx) rest g = Some m.
Proof.
  unfold Re.rgx_suffix, Re.lit. intros H.
  apply exec_Alt_Some in H as [H|H]; [|apply exec_Alt_Some in H as [H|H];
    [|apply exec_Alt_Some in H as [H|H]]].
  - apply exec_Cat_Set_Some in H as (c1 & s1 & -> & Hc1 & H).
    apply exec_Cat_Set_Some in H as (c2 & s2 & -> & Hc2 & H).
    apply Ascii.eqb_eq in Hc2 as <-.
    apply exec_Opt_Some in H as [H|H].
    + apply exec_Set_Some in H as (c3 & s3 & -> & Hc3 & H).
      apply Ascii.eqb_eq in Hc3 as <-.
      exists (String c1 "r."), s3.
      replace (pos + String.length (String c1 "r.")) with (S (S (S pos))) by (simpl; lia).
      split; [|split; [reflexivity|exact H]].
      destruct (J_or_S_true _ Hc1) as [->| ->]; unfold suffixes; set_solver.
    + exists (String c1 "r"), s2.
      replace (pos + String.length (String c1 "r")) with (S (S pos)) by (simpl; lia).
      split; [|split; [reflexivity|exact H]].
      destruct (J_or_S_true _ Hc1) as [->| ->]; unfold suffixes; set_solver.
  - apply exec_Cat_Set_Some in H as (c1 & s1 & -> & Hc1 & H).
    apply exec_Cat_Set_Some in H as (c2 & s2 & -> & Hc2 & H).
    apply Ascii.eqb_eq in Hc1 as <-. apply Ascii.eqb_eq in Hc2 as <-.
    apply exec_Opt_Some in H as [H|H].
    + apply exec_Set_Some in H as (c3 & s3 & -> & Hc3 & H).
      apply Ascii.eqb_eq in Hc3 as <-.
      exists "III", s3. replace (pos + String.length "III") with (S (S (S pos))) by (simpl; lia).
      split; [unfold suffixes; set_solver|]. split; [reflexivity|exact H].
    + exists "II", s2. replace (pos + String.length "II") with (S (S pos)) by (simpl; lia).
      split; [unfold suffixes; set_solver|]. split; [reflexivity|exact H].
  - apply exec_Cat_Set_Some in H as (c1 & s1 & -> & Hc1 & H).
    apply exec_Set_Some in H as (c2 & s2 & -> & Hc2 & H).
    apply Ascii.eqb_eq in Hc1 as <-. apply Ascii.eqb_eq in Hc2 as <-.
    exists "IV", s2. replace (pos + String.length "IV") with (S (S pos)) by (simpl; lia).
    split; [unfold suffixes; set_solver|]. split; [reflexivity|exact H].
  - apply exec_Set_Some in H as (c1 & s1 & -> & Hc1 & H).
    apply Ascii.eqb_eq in Hc1 as <-.
    exists "V", s1. replace (pos + String.length "V") with (S pos) by (simpl; lia).
    split; [unfold suffixes; set_solver|]. split; [reflexivity|exact H].
Qed.

Lemma substring_app_length (a b : string) :
  substring 0 (String.length a) (a +:+ b) = a.
Proof.
  induction a as [|c a IH]; simpl; [by destruct b|].
  change (String c (substring 0 (String.length a) (a +:+ b)) = String c a). by rewrite IH.
Qed.

Lemma exec_Cat_Group_Plus (name : string) (p : ascii → bool) (r : Re.regex)
    (pos : nat) (s : string) (g : Re.groups)
    (k : nat → string → Re.groups → option Re.groups) :
  Re.exec (Re.Cat (Re.Group name (Re.Plus p)) r) pos s g k =
  Re.plus_greedy p
    (fun pos' s' => Re.exec r pos' s' (<[name := substring 0 (pos' - pos) s]> g) k) pos s.
Proof. reflexivity. Qed.

Lemma exec_Cat_Group (name : string) (r1 r2 : Re.regex)
    (pos : nat) (s : string) (g : Re.groups)
    (k : nat → string → Re.groups → option Re.groups) :
  Re.exec (Re.Cat (Re.Group name r1) r2) pos s g k =
  Re.exec r1 pos s g
    (fun pos' s' g' => Re.exec r2 pos' s' (<[name := substring 0 (pos' - pos) s]> g') k).
Proof. reflexivity. Qed.

(** After the last name: the end of the string, or a separator and a
    suffix and then the end; [$] also matches before a final newline. *)
Lemma exec_tail_Some (pos : nat) (s : string) (g m : Re.groups) :
  Re.exec
    (Re.Cat (Re.Opt (Re.Cat (Re.Opt (Re.lit ","))
                       (Re.Cat (Re.Set_ isspace) (Re.Group "suffix" Re.rgx_suffix))))
            Re.Eos)
    pos s g (fun _ _ g => Some g) = Some m →
  (m = g ∧ (s = "" ∨ s = String Re.newline "")) ∨
  ∃ sep sfx e, s = sep +:+ sfx +:+ e ∧ is_separator sep ∧ sfx ∈ suffixes ∧
               (e = "" ∨ e = String Re.newline "") ∧ m = <["suffix" := sfx]> g.
Proof.
  intros H. apply exec_Cat_Opt_Some in H as [H|H].
  - right.
    change (Re.exec (Re.Cat (Re.Opt (Re.lit ","))
              (Re.Cat (Re.Set_ isspace) (Re.Cat (Re.Group "suffix" Re.rgx_suffix) Re.Eos)))
              pos s g (fun _ _ g => Some g) = Some m) in H.
    assert (Hsuffix : ∀ pos1 s1,
      Re.exec (Re.Cat (Re.Set_ isspace) (Re.Cat (Re.Group "suffix" Re.rgx_suffix) Re.Eos))
        pos1 s1 g (fun _ _ g => Some g) = Some m →
      ∃ w sfx e, s1 = String w (sfx +:+ e) ∧ isspace w = true ∧ sfx ∈ suffixes ∧
                 (e = "" ∨ e = String Re.newline "") ∧ m = <["suffix" := sfx]> g).
    { intros pos1 s1 H1.
      apply exec_Cat_Set_Some in H1 as (w & s2 & -> & Hw & H1).
      rewrite exec_Cat_Group in H1.
      apply exec_suffix_Some in H1 as (sfx & e & Hsfx & -> & H1).
      apply exec_Eos_Some in H1 as [He H1]. injection H1 as <-.
      exists w, sfx, e. split; [reflexivity|]. split; [exact Hw|].
      split; [exact Hsfx|]. split; [exact He|].
      replace (pos1 + String.length sfx - pos1) with (String.length sfx) by lia.
      by rewrite substring_app_length. }
    apply exec_Cat_Opt_Some in H as [H|H].
    + unfold Re.lit in H. apply exec_Cat_Set_Some in H as (c & s1 & -> & Hc & H).
      apply Ascii.eqb_eq in Hc as <-.
      apply Hsuffix in H as (w & sfx & e & -> & Hw & Hsfx & He & ->).
      exists (String "," (String w "")), sfx, e. split; [reflexivity|].
      split; [exists w; auto|]. auto.
    + apply Hsuffix in H as (w & sfx & e & -> & Hw & Hsfx & He & ->).
      exists (String w ""), sfx, e. split; [reflexivity|].
      split; [exists w; auto|]. auto.
  - left. apply exec_Eos_Some in H as [He [= <-]]. auto.
Qed.

(** The shape of a string the full-name pattern matches, and the groups of
    the match. *)
Lemma full_name_match (s : string) (m : Re.groups) :
  Re.match_ Re.rgx_full_name s = Some m →
  ∃ f w l tail,
    s = f +:+ String w (l +:+ tail) ∧ f ≠ "" ∧ l ≠ "" ∧ isspace w = true ∧
    (∀ c, contains c f = true → c ≠ Re.newline) ∧
    (∀ c, contains c l = true → isspace c = false ∧ c ≠ ","%char) ∧
    ((m = <["last" := l]> (<["first" := f]> ∅) ∧
      (tail = "" ∨ tail = String Re.newline "")) ∨
     ∃ sep sfx e, tail = sep +:+ sfx +:+ e ∧ is_separator sep ∧ sfx ∈ suffixes ∧
                  (e = "" ∨ e = String Re.newline "") ∧
                  m = <["suffix" := sfx]> (<["last" := l]> (<["first" := f]> ∅))).
Proof.
  unfold Re.match_, Re.rgx_full_name. cbn [Re.exec Nat.eqb]. intros H.
  apply plus_lazy_run in H as (n & Hn & Hf & Hdot & H).
  unfold Re.rgx_last_suffix in H.
  apply exec_Cat_Set_Some in H as (w & s2 & Hs2 & Hw & H).
  rewrite exec_Cat_Group_Plus in H.
  apply plus_greedy_run in H as (n2 & Hn2 & Hl & Hnsc & H).
  replace (0 + n - 0) with n in H by lia.
  replace (S (0 + n) + n2 - S (0 + n)) with n2 in H by lia.
  exists (substring 0 n s), w, (substring 0 n2 s2), (str_from n2 s2).
  split.
  { rewrite substring_str_from, <- Hs2. symmetry. apply substring_str_from. }
  split; [exact Hf|]. split; [exact Hl|]. split; [exact Hw|]. split.
  { intros c Hc Heq. apply Hdot in Hc. unfold Re.dot in Hc. subst c.
    by rewrite Ascii.eqb_refl in Hc. }
  split.
  { intros c Hc. apply Hnsc in Hc. unfold Re.not_space_comma in Hc.
    apply andb_true_iff in Hc as [Hsp Hcomma].
    apply negb_true_iff in Hsp, Hcomma. split; [exact Hsp|].
    intros ->. by rewrite Ascii.eqb_refl in Hcomma. }
  apply exec_tail_Some in H as [[-> Ht]|(sep & sfx & e & Ht & Hsep & Hsfx & He & ->)].
  - by left.
  - right. exists sep, sfx, e. auto.
Qed.

Lemma last_char_app (a b : string) : b ≠ "" → last_char (a +:+ b) = last_char b.
Proof.
  intros Hb. induction a as [|c a IH]; [reflexivity|].
  change (last_char (String c (a +:+ b)) = last_char b).
  destruct (a +:+ b) as [|d r] eqn:Hab.
  - destruct a; [exact (False_ind _ (Hb Hab))|discriminate Hab].
  - exact IH.
Qed.

Lemma append_assoc (a b c : string) : (a +:+ b) +:+ c = a +:+ b +:+ c.
Proof.
  induction a as [|d a IH]; [reflexivity|].
  change (String d ((a +:+ b) +:+ c) = String d (a +:+ b +:+ c)). by rewrite IH.
Qed.

Lemma append_nil_r (a : string) : a +:+ "" = a.
Proof.
  induction a as [|d a IH]; [reflexivity|].
  change (String d (a +:+ "") = String d a). by rewrite IH.
Qed.

Lemma last_char_rstrip (s : string) (c : ascii) :
  last_char (rstrip s) = Some c → isspace c = false.
Proof.
  induction s as [|d s IH]; simpl; [discriminate|].
  destruct (rstrip s) as [|e r] eqn:Hr.
  - destruct (isspace d) eqn:Hd; simpl; [discriminate|]. by intros [= <-].
  - exact IH.
Qed.

(** X9: the components of a [Name]. The stripped full name is the first
    name, one whitespace character, the last name and then either nothing
    or a separator (an optional comma and one whitespace character) and a
    suffix; first and last name are not empty, the last name holds no
    whitespace and no comma, and the suffix is absent or one of [Jr.],
    [Jr], [Sr.], [Sr], [III], [II], [IV], [V]. *)
Theorem Name_init_components (s : string) (n : Name.t) :
  Name.init s = Return n →
  ∃ f w l tail,
    Name.full_name n = strip s ∧
    strip s = f +:+ String w (l +:+ tail) ∧
    Name.first n = Some f ∧ Name.last n = Some l ∧
    f ≠ "" ∧ l ≠ "" ∧ isspace w = true ∧
    (∀ c, contains c l = true → isspace c = false ∧ c ≠ ","%char) ∧
    ((Name.suffix n = None ∧ tail = "") ∨
     ∃ sep sfx, Name.suffix n = Some sfx ∧ sfx ∈ suffixes ∧
                is_separator sep ∧ tail = sep +:+ sfx).
Proof.
  unfold Name.init.
  destruct (Re.match_ Re.rgx_full_name (strip s)) as [m|] eqn:Hm; [|discriminate].
  intros [= <-]. cbn [Name.full_name Name.first Name.last Name.suffix].
  apply full_name_match in Hm
    as (f & w & l & tail & Hs & Hf & Hl & Hw & _ & Hlast & Hm).
  assert (Hend : ∀ a, strip s ≠ a +:+ String Re.newline "").
  { intros a Ha.
    assert (Hlast' : last_char (strip s) = Some Re.newline).
    { rewrite Ha. by rewrite last_char_app. }
    apply last_char_rstrip in Hlast'. discriminate Hlast'. }
  exists f, w, l, tail. unfold Re.group.
  destruct Hm as [[-> Ht]|(sep & sfx & e & -> & Hsep & Hsfx & He & ->)].
  - split; [reflexivity|]. split; [exact Hs|].
    split; [by rewrite lookup_insert_ne, lookup_insert_eq by discriminate|].
    split; [by rewrite lookup_insert_eq|].
    do 4 (split; [assumption|]). left.
    split; [by rewrite !lookup_insert_ne, lookup_empty by discriminate|].
    destruct Ht as [Ht|Ht]; [exact Ht|]. exfalso. subst tail.
    apply (Hend (f +:+ String w l)). rewrite Hs.
    by rewrite append_assoc.
  - split; [reflexivity|]. split; [exact Hs|].
    split; [by do 2 rewrite lookup_insert_ne by discriminate; rewrite lookup_insert_eq|].
    split; [by rewrite lookup_insert_ne, lookup_insert_eq by discriminate|].
    do 4 (split; [assumption|]). right. exists sep, sfx.
    split; [by rewrite lookup_insert_eq|]. split; [exact Hsfx|]. split; [exact Hsep|].
    destruct He as [-> | ->]; [by rewrite append_nil_r|].
    exfalso. apply (Hend (f +:+ String w (l +:+ sep +:+ sfx))). rewrite Hs.
    rewrite append_assoc.
    change (String w (l +:+ sep +:+ sfx) +:+ String Re.newline "")
      with (String w ((l +:+ sep +:+ sfx) +:+ String Re.newline "")).
    by rewrite !append_assoc.
Qed.

Lemma Name_init_components_witness :
  ∃ f w l tail,
    Name.full_name (Name.Make "Tim Hardaway, Jr." (Some "Tim") (Some "Hardaway") (Some "Jr."))
      = strip " Tim Hardaway, Jr. " ∧
    strip " Tim Hardaway, Jr. " = f +:+ String w (l +:+ tail) ∧
    Some "Tim" = Some f ∧ Some "Hardaway" = Some l ∧
    f ≠ "" ∧ l ≠ "" ∧ isspace w = true ∧
    (∀ c, contains c l = true → isspace c = false ∧ c ≠ ","%char) ∧
    ((Some "Jr." = None ∧ tail = "") ∨
     ∃ sep sfx, Some "Jr." = Some sfx ∧ sfx ∈ suffixes ∧
                is_separator sep ∧ tail = sep +:+ sfx).
Proof.
  apply (Name_init_components " Tim Hardaway, Jr. "
           (Name.Make "Tim Hardaway, Jr." (Some "Tim") (Some "Hardaway") (Some "Jr."))).
  vm_compute. reflexivity.
Defined.

(** X10: whitespace around a name does not change how it decomposes, and
    the stored full name decomposes to the same [Name] again. *)
Theorem Name_init_reparse (s : string) :
  Name.init (strip s) = Name.init s ∧
  ∀ n, Name.init s = Return n → Name.init (Name.full_name n) = Return n.
Proof.
  split; [apply Name_init_strip|]. intros n Hn.
  destruct (Name_init_Return _ _ Hn) as [-> _]. by rewrite Name_init_strip.
Qed.

(** ** [AbbreviatedNameWizard]: the scan and the fallback *)

Lemma scan_miss (first_init : ascii) (last_name : string) (objs : list Name.t) :
  (∀ m, m ∈ objs →
        Name.last m ≠ Some last_name ∨
        ∃ d g, Name.first m = Some (String d g) ∧ d ≠ first_init) →
  AbbreviatedNameWizard.scan first_init last_name objs = Return None.
Proof.
  induction objs as [|m objs IH]; intros Hmiss; [reflexivity|].
  cbn [AbbreviatedNameWizard.scan].
  assert (Hrest := IH (fun m' Hm' => Hmiss m' (list_elem_of_further _ _ _ Hm'))).
  destruct (Hmiss m (list_elem_of_here _ _)) as [Hlast|(d & g & Hfirst & Hd)].
  - by rewrite (bool_decide_eq_true_2 _ Hlast).
  - destruct (bool_decide (Name.last m ≠ Some last_name)); [exact Hrest|].
    rewrite Hfirst. simpl. apply Ascii.eqb_neq in Hd. by rewrite Hd.
Qed.

Lemma scan_first_match (first_init : ascii) (last_name : string)
    (pre post : list Name.t) (n : Name.t) (f : string) :
  Name.last n = Some last_name →
  Name.first n = Some (String first_init f) →
  (∀ m, m ∈ pre →
        Name.last m ≠ Some last_name ∨
        ∃ d g, Name.first m = Some (String d g) ∧ d ≠ first_init) →
  AbbreviatedNameWizard.scan first_init last_name (pre ++ n :: post)
  = Return (Some (Name.full_name n)).
Proof.
  intros Hlast Hfirst. induction pre as [|m pre IH]; intros Hmiss.
  - cbn [app AbbreviatedNameWizard.scan].
    rewrite bool_decide_eq_false_2 by (intros Hne; exact (Hne Hlast)).
    rewrite Hfirst. simpl. by rewrite Ascii.eqb_refl.
  - cbn [app AbbreviatedNameWizard.scan].
    assert (Hrest := IH (fun m' Hm' => Hmiss m' (list_elem_of_further _ _ _ Hm'))).
    destruct (Hmiss m (list_elem_of_here _ _)) as [Hl|(d & g & Hf & Hd)].
    + by rewrite (bool_decide_eq_true_2 _ Hl).
    + destruct (bool_decide (Name.last m ≠ Some last_name)); [exact Hrest|].
      rewrite Hf. simpl. apply Ascii.eqb_neq in Hd. by rewrite Hd.
Qed.

(** X11: first match wins. When a decomposed name has the last name
    [abbrev[3:]] and a first name starting with [abbrev[0]], and no name
    before it in [name_objs] has both, [full_name] returns its full name
    and leaves the wizard, in particular [used_levenshtein], as it was. *)
Theorem full_name_first_match (self : AbbreviatedNameWizard.t) (c : ascii) (rest : string)
    (pre post : list Name.t) (n : Name.t) (f : string) :
  AbbreviatedNameWizard.name_objs self = pre ++ n :: post →
  Name.last n = Some (str_from 3 (String c rest)) →
  Name.first n = Some (String c f) →
  (∀ m, m ∈ pre →
        Name.last m ≠ Some (str_from 3 (String c rest)) ∨
        ∃ d g, Name.first m = Some (String d g) ∧ d ≠ c) →
  AbbreviatedNameWizard.full_name self (String c rest) = (self, Return (Name.full_name n)).
Proof.
  intros Hobjs Hlast Hfirst Hpre. unfold AbbreviatedNameWizard.full_name.
  rewrite get_first_init_last_name_cons, bind_Return, Hobjs.
  by rewrite (scan_first_match c _ pre post n f Hlast Hfirst Hpre).
Qed.

Lemma full_name_first_match_witness :
  ∃ self,
    AbbreviatedNameWizard.init ["Marcus Morris"; "Markieff Morris"; "Monte Morris"]
      = Return self ∧
    AbbreviatedNameWizard.full_name self "M. Morris" = (self, Return "Marcus Morris").
Proof.
  eexists. split; [vm_compute; reflexivity|].
  apply (full_name_first_match _ "M" ". Morris" []
           [Name.Make "Markieff Morris" (Some "Markieff") (Some "Morris") None;
            Name.Make "Monte Morris" (Some "Monte") (Some "Morris") None]
           (Name.Make "Marcus Morris" (Some "Marcus") (Some "Morris") None) "arcus");
    try reflexivity.
  intros m Hm. by apply elem_of_nil in Hm.
Defined.

(** X12: [full_name] never changes [raw_names] or [name_objs], changes
    [used_levenshtein] at most at the key [abbrev], where it then holds the
    returned name, and leaves the wizard untouched when it raises. *)
Theorem full_name_frame (self : AbbreviatedNameWizard.t) (abbrev : string) :
  let self' := (AbbreviatedNameWizard.full_name self abbrev).1 in
  let r := (AbbreviatedNameWizard.full_name self abbrev).2 in
  AbbreviatedNameWizard.raw_names self' = AbbreviatedNameWizard.raw_names self ∧
  AbbreviatedNameWizard.name_objs self' = AbbreviatedNameWizard.name_objs self ∧
  (∀ e, r = Raise e → self' = self) ∧
  (∀ x, r = Return x →
        self' = self ∨
        AbbreviatedNameWizard.used_levenshtein self' =
          <[abbrev := x]> (AbbreviatedNameWizard.used_levenshtein self)) ∧
  (∀ key, key ≠ abbrev →
          AbbreviatedNameWizard.used_levenshtein self' !! key =
          AbbreviatedNameWizard.used_levenshtein self !! key).
Proof.
  unfold AbbreviatedNameWizard.full_name.
  destruct (_ ≫= _) as [[found|]|e]; simpl.
  - repeat split; auto.
  - destruct (item0 _) as [best|e]; simpl.
    + repeat split; try discriminate.
      * intros x [= <-]. by right.
      * intros key Hkey. by rewrite lookup_insert_ne.
    + repeat split; auto.
  - repeat split; auto.
Qed.

(** X13: the two ways [full_name] fails: on the empty abbreviation
    [abbrev[0]] raises [IndexError] whatever the wizard holds, and on a
    wizard built from an empty universe the fallback reads
    [edit_distances[0]] of an empty list and raises [IndexError] for every
    abbreviation; the wizard is left as it was. *)
Theorem full_name_IndexError :
  (∀ self, AbbreviatedNameWizard.full_name self "" = (self, Raise IndexError)) ∧
  AbbreviatedNameWizard.init [] = Return (AbbreviatedNameWizard.Make [] [] ∅) ∧
  ∀ used abbrev,
    AbbreviatedNameWizard.full_name (AbbreviatedNameWizard.Make [] [] used) abbrev
    = (AbbreviatedNameWizard.Make [] [] used, Raise IndexError).
Proof.
  split; [reflexivity|]. split; [reflexivity|].
  intros used [|c rest]; reflexivity.
Qed.

Lemma filter_head_split {A : Type} (P : A → Prop) `{∀ x, Decision (P x)}
    (l : list A) (x : A) (r : list A) :
  filter P l = x :: r →
  ∃ pre post, l = pre ++ x :: post ∧ P x ∧ ∀ y, y ∈ pre → ¬ P y.
Proof.
  induction l as [|y l IH]; [discriminate|].
  rewrite filter_cons. destruct (decide (P y)) as [Hy|Hy].
  - intros [= -> <-]. exists [], l. split; [reflexivity|]. split; [exact Hy|].
    intros z Hz. by apply elem_of_nil in Hz.
  - intros Hfilter. destruct (IH Hfilter) as (pre & post & -> & Hx & Hpre).
    exists (y :: pre), post. split; [reflexivity|]. split; [exact Hx|].
    intros z Hz. apply elem_of_cons in Hz as [->|Hz]; [exact Hy|by apply Hpre].
Qed.

(** The head of [name_edit_distances]: the first of the names at the
    shortest distance. *)
Lemma closest_name_first (ref_name : string) (other_names : list string)
    (best : string * nat) (rest : list (string * nat)) :
  name_edit_distances ref_name other_names = best :: rest →
  ∃ pre post,
    other_names = pre ++ best.1 :: post ∧
    best.2 = Nltk.edit_distance best.1 ref_name ∧
    (∀ u, u ∈ pre → (Nltk.edit_distance best.1 ref_name < Nltk.edit_distance u ref_name)%nat) ∧
    (∀ u, u ∈ post → (Nltk.edit_distance best.1 ref_name ≤ Nltk.edit_distance u ref_name)%nat).
Proof.
  intros Hs. unfold name_edit_distances in Hs.
  set (pairs := map (fun name => (name, Nltk.edit_distance name ref_name)) other_names) in Hs.
  pose proof (sort_stable_perm (fun x y : string * nat => Nat.leb x.2 y.2) pairs) as Hperm.
  pose proof (sort_stable_StronglySorted (snd : string * nat → nat) pairs) as Hsorted.
  pose proof (sort_stable_filter_key (snd : string * nat → nat) best.2 pairs) as Hstable.
  rewrite Hs in Hperm, Hsorted, Hstable.
  assert (Hbest : best ∈ pairs) by (rewrite <- Hperm; apply list_elem_of_here).
  apply list_elem_of_fmap in Hbest as (name & Hbest & _).
  assert (Hmin : ∀ u, u ∈ other_names → (best.2 ≤ Nltk.edit_distance u ref_name)%nat).
  { intros u Hu.
    assert (Hin : (u, Nltk.edit_distance u ref_name) ∈ best :: rest).
    { rewrite Hperm. unfold pairs. apply list_elem_of_fmap. eauto. }
    apply StronglySorted_inv in Hsorted as [_ Hall].
    apply elem_of_cons in Hin as [<-|Hin]; [reflexivity|].
    rewrite Forall_forall in Hall. exact (Hall _ Hin). }
  rewrite filter_cons_True in Hstable by reflexivity.
  apply (f_equal (fmap fst)) in Hstable.
  unfold pairs in Hstable. rewrite filter_snd_pairs, fmap_cons in Hstable.
  symmetry in Hstable. apply filter_head_split in Hstable as (pre & post & Hsplit & Hd & Hpre).
  simpl in Hd.
  exists pre, post. split; [exact Hsplit|]. split; [by rewrite Hbest|]. split.
  - intros u Hu.
    assert (Hle := Hmin u ltac:(rewrite Hsplit; apply elem_of_app; by left)).
    specialize (Hpre u Hu). simpl in Hpre. lia.
  - intros u Hu. rewrite Hd. apply Hmin. rewrite Hsplit. apply elem_of_app. right.
    by apply list_elem_of_further.
Qed.

(** X14: the fallback. When no decomposed name has the last name
    [abbrev[3:]] and a first name starting with [abbrev[0]], [full_name]
    on a non-empty universe returns the first entry of the universe among
    those at the shortest edit distance from the abbreviation, and logs it
    in [used_levenshtein]. *)
Theorem full_name_fallback (self : AbbreviatedNameWizard.t) (c : ascii) (rest : string) :
  AbbreviatedNameWizard.raw_names self ≠ [] →
  (∀ m, m ∈ AbbreviatedNameWizard.name_objs self →
        Name.last m ≠ Some (str_from 3 (String c rest)) ∨
        ∃ d g, Name.first m = Some (String d g) ∧ d ≠ c) →
  ∃ r pre post,
    AbbreviatedNameWizard.full_name self (String c rest) =
      (AbbreviatedNameWizard.Make (AbbreviatedNameWizard.raw_names self)
         (AbbreviatedNameWizard.name_objs self)
         (<[String c rest := r]> (AbbreviatedNameWizard.used_levenshtein self)),
       Return r) ∧
    AbbreviatedNameWizard.raw_names self = pre ++ r :: post ∧
    (∀ u, u ∈ pre →
       (Nltk.edit_distance r (String c rest) < Nltk.edit_distance u (String c rest))%nat) ∧
    (∀ u, u ∈ post →
       (Nltk.edit_distance r (String c rest) ≤ Nltk.edit_distance u (String c rest))%nat).
Proof.
  intros Huniv Hmiss. unfold AbbreviatedNameWizard.full_name.
  rewrite get_first_init_last_name_cons, bind_Return, (scan_miss _ _ _ Hmiss).
  destruct (name_edit_distances (String c rest) (AbbreviatedNameWizard.raw_names self))
    as [|best l] eqn:Hs.
  - exfalso. destruct (closest_name (String c rest) _ Huniv) as (best & Hbest & _).
    rewrite Hs in Hbest. discriminate Hbest.
  - destruct (closest_name_first _ _ _ _ Hs) as (pre & post & Hsplit & _ & Hpre & Hpost).
    exists best.1, pre, post. split; [reflexivity|]. auto.
Qed.

Lemma full_name_fallback_witness :
  ∃ r pre post,
    AbbreviatedNameWizard.full_name
      (AbbreviatedNameWizard.Make ["Nene"; "Jon Smyth"; "Jon Smith"]
         (decomposed ["Nene"; "Jon Smyth"; "Jon Smith"]) ∅) "J. Smath" =
      (AbbreviatedNameWizard.Make ["Nene"; "Jon Smyth"; "Jon Smith"]
         (decomposed ["Nene"; "Jon Smyth"; "Jon Smith"]) (<["J. Smath" := r]> ∅),
       Return r) ∧
    ["Nene"; "Jon Smyth"; "Jon Smith"] = pre ++ r :: post ∧
    (∀ u, u ∈ pre →
       (Nltk.edit_distance r "J. Smath" < Nltk.edit_distance u "J. Smath")%nat) ∧
    (∀ u, u ∈ post →
       (Nltk.edit_distance r "J. Smath" ≤ Nltk.edit_distance u "J. Smath")%nat).
Proof.
  apply (full_name_fallback
           (AbbreviatedNameWizard.Make ["Nene"; "Jon Smyth"; "Jon Smith"]
              (decomposed ["Nene"; "Jon Smyth"; "Jon Smith"]) ∅) "J" ". Smath").
  - discriminate.
  - intros m Hm. left. vm_compute in Hm.
    repeat (apply elem_of_cons in Hm as [->|Hm]; [discriminate|]).
    by apply elem_of_nil in Hm.
Defined.

(** ** [MostSimilarNameWizard.solve] *)

Lemma try_name_Some (self : MostSimilarNameWizard.t) (new_name r : string) :
  MostSimilarNameWizard.try_name self new_name = Some r →
  r ∈ MostSimilarNameWizard.universe self.
Proof.
  unfold MostSimilarNameWizard.try_name, MostSimilarNameWizard.in_universe.
  destruct (bool_decide_reflect (new_name ∈ MostSimilarNameWizard.universe self));
    [|discriminate].
  by intros [= <-].
Qed.

Lemma first_in_universe_Some (self : MostSimilarNameWizard.t) (candidates : list string)
    (r : string) :
  MostSimilarNameWizard.first_in_universe self candidates = Some r →
  r ∈ MostSimilarNameWizard.universe self.
Proof.
  unfold MostSimilarNameWizard.first_in_universe.
  destruct (list_find _ candidates) as [[i x]|] eqn:Hfind; [|discriminate].
  simpl. intros [= <-]. by apply list_find_Some in Hfind as (_ & Hx & _).
Qed.

Lemma is_match_no_periods (f : string) :
  MostSimilarNameWizard.is_match Re.rgx_abbr_no_periods f = true →
  ∃ c0 c1 r, f = String c0 (String c1 r).
Proof.
  unfold MostSimilarNameWizard.is_match, Re.match_, Re.rgx_abbr_no_periods.
  cbn [Re.exec]. destruct f as [|c0 [|c1 r]]; [discriminate| |eauto].
  destruct (Re.upper c0); discriminate.
Qed.

Lemma returning_cases (block : option string) (rest : result string) (out : result string) :
  MostSimilarNameWizard.returning block rest = out →
  (∃ r, block = Some r ∧ out = Return r) ∨ (block = None ∧ rest = out).
Proof. destruct block as [r|]; simpl; intros <-; eauto. Qed.

(** What [solve] does once the name is not in the universe and the pattern
    has matched it: every [return] is guarded by a membership test and
    every [raise] is the same [PMissingError]. *)
Lemma solve_after_match (self : MostSimilarNameWizard.t) (full_name : string)
    (m : Re.groups) (out : result string) :
  full_name ∉ MostSimilarNameWizard.universe self →
  Re.match_ Re.rgx_full_name full_name = Some m →
  MostSimilarNameWizard.solve self full_name = out →
  (∃ r, out = Return r ∧ r ∈ MostSimilarNameWizard.universe self) ∨
  out = Raise (PMissingError ["solve"; full_name]).
Proof.
  intros Hnot Hm. unfold MostSimilarNameWizard.solve.
  unfold MostSimilarNameWizard.in_universe at 1.
  rewrite (bool_decide_eq_false_2 _ Hnot).
  unfold MostSimilarNameWizard.break_down_name_components. rewrite Hm.
  cbn [not_none]. rewrite !bind_Return.
  apply full_name_match in Hm as (f & w & l & tail & _ & _ & _ & _ & _ & _ & Hm).
  assert (Hgroups : Re.group m "first" = Some f ∧ Re.group m "last" = Some l).
  { unfold Re.group.
    destruct Hm as [[-> _]|(sep & sfx & e & _ & _ & _ & _ & ->)]; split;
      repeat (rewrite lookup_insert_ne by discriminate); by rewrite lookup_insert_eq. }
  destruct Hgroups as [-> ->]. cbn [not_none]. rewrite bind_Return.
  assert (Hguard : ∀ new_name out',
    (if MostSimilarNameWizard.in_universe self new_name then Return new_name
     else Raise (MostSimilarNameWizard.missing full_name)) = out' →
    (∃ r, out' = Return r ∧ r ∈ MostSimilarNameWizard.universe self) ∨
    out' = Raise (PMissingError ["solve"; full_name])).
  { intros new_name out'. unfold MostSimilarNameWizard.in_universe.
    destruct (bool_decide_reflect (new_name ∈ MostSimilarNameWizard.universe self));
      intros <-; [left; eauto|by right]. }
  destruct (MostSimilarNameWizard.is_match Re.rgx_abbr_no_periods f) eqn:Hnp.
  { apply is_match_no_periods in Hnp as (c0 & c1 & r & ->).
    cbn [String.get not_none Nat.eqb]. rewrite !bind_Return. apply Hguard. }
  destruct (MostSimilarNameWizard.is_match Re.rgx_abbr_periods f).
  { rewrite bind_Return. apply Hguard. }
  destruct (bool_decide (Re.group m "suffix" ≠ None)).
  { rewrite bind_Return. apply Hguard. }
  rewrite bind_Return. intros Hout.
  apply returning_cases in Hout as [(r & Hr & ->)|[_ Hout]].
  { left. exists r. split; [reflexivity|].
    destruct (contains "'" f); [by apply try_name_Some in Hr|discriminate]. }
  apply returning_cases in Hout as [(r & Hr & ->)|[_ Hout]].
  { left. exists r. split; [reflexivity|].
    destruct (contains "'" l); [by apply try_name_Some in Hr|discriminate]. }
  apply returning_cases in Hout as [(r & Hr & ->)|[_ Hout]].
  { left. exists r. split; [reflexivity|].
    destruct (contains "-" l); [by apply first_in_universe_Some in Hr|discriminate]. }
  apply returning_cases in Hout as [(r & Hr & ->)|[_ Hout]].
  { left. exists r. split; [reflexivity|].
    destruct (AliasWizard.get_aliases _ f);
      [by apply first_in_universe_Some in Hr|discriminate]. }
  by right.
Qed.

(** X15: [solve] returns a name of the universe and nothing else: a name
    that is in the universe comes back unchanged, every returned name is in
    the universe, and the only exceptions are the [AttributeError] of a
    name the pattern does not match and [PMissingError('solve', name)]. *)
Theorem solve_sound (self : MostSimilarNameWizard.t) (full_name : string) :
  (full_name ∈ MostSimilarNameWizard.universe self →
   MostSimilarNameWizard.solve self full_name = Return full_name) ∧
  (∀ r, MostSimilarNameWizard.solve self full_name = Return r →
        r ∈ MostSimilarNameWizard.universe self) ∧
  (∀ e, MostSimilarNameWizard.solve self full_name = Raise e →
        (e = AttributeError ∧ Re.match_ Re.rgx_full_name full_name = None) ∨
        e = PMissingError ["solve"; full_name]).
Proof.
  assert (Hin : full_name ∈ MostSimilarNameWizard.universe self →
                MostSimilarNameWizard.solve self full_name = Return full_name).
  { intros H. unfold MostSimilarNameWizard.solve, MostSimilarNameWizard.in_universe.
    by rewrite (bool_decide_eq_true_2 _ H). }
  split; [exact Hin|].
  destruct (decide (full_name ∈ MostSimilarNameWizard.universe self)) as [H|H].
  { rewrite (Hin H). split; [by intros r [= <-]|discriminate]. }
  destruct (Re.match_ Re.rgx_full_name full_name) as [m|] eqn:Hm.
  - split.
    + intros r Hr.
      destruct (solve_after_match self full_name m _ H Hm Hr) as [(r' & [= <-] & Hr')|Hbad];
        [exact Hr'|discriminate Hbad].
    + intros e He.
      destruct (solve_after_match self full_name m _ H Hm He) as [(r' & Hbad & _)|[= ->]];
        [discriminate Hbad|by right].
  - assert (Hraise : MostSimilarNameWizard.solve self full_name = Raise AttributeError).
    { unfold MostSimilarNameWizard.solve, MostSimilarNameWizard.in_universe.
      rewrite (bool_decide_eq_false_2 _ H).
      unfold MostSimilarNameWizard.break_down_name_components. by rewrite Hm. }
    rewrite Hraise. split; [discriminate|]. intros e [= <-]. by left.
Qed.

Lemma last_char_contains (s : string) (c : ascii) :
  last_char s = Some c → contains c s = true.
Proof.
  induction s as [|d s IH]; [discriminate|].
  destruct s as [|e s'].
  - intros [= ->]. simpl. by rewrite Ascii.eqb_refl.
  - intros H. change (last_char (String e s') = Some c) in H.
    change (Ascii.eqb c d || contains c (String e s') = true).
    rewrite (IH H). apply orb_true_r.
Qed.

(** A string the full-name pattern matches does not end in whitespace,
    unless in a newline. *)
Lemma full_name_match_end (s : string) (m : Re.groups) (c : ascii) :
  Re.match_ Re.rgx_full_name s = Some m →
  last_char s = Some c → isspace c = true → c = Re.newline.
Proof.
  intros Hm Hlast Hc.
  apply full_name_match in Hm as (f & w & l & tail & -> & _ & Hl & _ & _ & Hchars & Hm).
  rewrite last_char_app in Hlast by discriminate.
  change (last_char (String w (l +:+ tail)) = Some c) in Hlast.
  assert (Hlt : l +:+ tail ≠ "") by (destruct l; [congruence|discriminate]).
  assert (Hlast' : last_char (l +:+ tail) = Some c).
  { destruct (l +:+ tail); [congruence|exact Hlast]. }
  clear Hlast.
  assert (Hends : ∀ e, e = "" ∨ e = String Re.newline "" → ∀ a, a ≠ "" →
            (∀ d, last_char a = Some d → isspace d = false) →
            last_char (a +:+ e) = Some c → c = Re.newline).
  { intros e [-> | ->] a Ha Hnosp Hl'.
    - rewrite append_nil_r in Hl'. apply Hnosp in Hl'. congruence.
    - rewrite last_char_app in Hl' by discriminate. by injection Hl' as <-. }
  assert (Hlsp : ∀ d, last_char l = Some d → isspace d = false).
  { intros d Hd. apply last_char_contains in Hd. by apply Hchars in Hd as [Hd _]. }
  destruct Hm as [[_ Ht]|(sep & sfx & e & -> & _ & Hsfx & He & _)].
  - exact (Hends tail Ht l Hl Hlsp Hlast').
  - rewrite <- !append_assoc in Hlast'.
    apply (Hends e He ((l +:+ sep) +:+ sfx)); [| |exact Hlast'].
    + destruct ((l +:+ sep) +:+ sfx) eqn:Heq; [|discriminate].
      destruct l; [congruence|discriminate Heq].
    + assert (Hne : sfx ≠ "").
      { unfold suffixes in Hsfx.
        repeat (apply elem_of_cons in Hsfx as [->|Hsfx]; [discriminate|]).
        by apply elem_of_nil in Hsfx. }
      intros d. rewrite last_char_app by exact Hne. unfold suffixes in Hsfx.
      repeat (apply elem_of_cons in Hsfx as [->|Hsfx]; [by intros [= <-]|]).
      by apply elem_of_nil in Hsfx.
Qed.

(** X16: [solve] does not strip its argument and does not guard the
    match: for a name that is not literally in the universe and that
    either holds no whitespace at all or ends in a whitespace character
    other than a newline, [solve] raises [AttributeError], whatever the
    universe and the alias table hold. *)
Theorem solve_AttributeError (self : MostSimilarNameWizard.t) (full_name : string) :
  full_name ∉ MostSimilarNameWizard.universe self →
  no_whitespace full_name ∨
  (∃ c, last_char full_name = Some c ∧ isspace c = true ∧ c ≠ Re.newline) →
  MostSimilarNameWizard.solve self full_name = Raise AttributeError.
Proof.
  intros Hnot Hshape.
  assert (Hm : Re.match_ Re.rgx_full_name full_name = None).
  { destruct Hshape as [Hs|(c & Hlast & Hc & Hnl)].
    - by apply full_name_needs_whitespace.
    - destruct (Re.match_ Re.rgx_full_name full_name) as [m|] eqn:Hm; [|reflexivity].
      exfalso. apply Hnl. exact (full_name_match_end _ _ _ Hm Hlast Hc). }
  unfold MostSimilarNameWizard.solve, MostSimilarNameWizard.in_universe.
  rewrite (bool_decide_eq_false_2 _ Hnot).
  unfold MostSimilarNameWizard.break_down_name_components. by rewrite Hm.
Qed.

Lemma solve_AttributeError_witness :
  MostSimilarNameWizard.solve (MostSimilarNameWizard.Make ["John Smith"] []) "John Smith "
  = Raise AttributeError.
Proof.
  apply (solve_AttributeError (MostSimilarNameWizard.Make ["John Smith"] []) "John Smith ").
  - simpl. intros Hin. apply list_elem_of_singleton in Hin. discriminate Hin.
  - right. exists " "%char. split; [reflexivity|]. split; [reflexivity|discriminate].
Defined.

(** ** [DBIntegrityCheck]: the checklists as a whole *)

Lemma set_err_log_same (self : Integrity.t) :
  Integrity.set_err_log self (Integrity.err_log self ++ []) = self.
Proof. rewrite app_nil_r. by destruct self. Qed.

Lemma log_set_err_log (self : Integrity.t) (tbl info data_id : string) :
  Integrity.log self tbl info data_id =
  Integrity.set_err_log self
    (Integrity.err_log self ++ [Integrity.ErrRow tbl data_id info]).
Proof. reflexivity. Qed.

(** X17: [__inspect_gid_grp] never raises, whatever the group: it appends
    at most one row to the error log, of table ['TStats'] and id
    ['gid = <gid>'], and changes nothing else; a group that does not have
    exactly two rows gets the row ['Row count != 2']. *)
Theorem inspect_gid_grp_total (self : Integrity.t) (grp : list Integrity.tstats_row)
    (gid : string) :
  ∃ rows,
    Integrity.inspect_gid_grp self grp gid =
      Return (Integrity.set_err_log self (Integrity.err_log self ++ rows)) ∧
    (rows = [] ∨ ∃ info, rows = [Integrity.ErrRow "TStats" ("gid = " +:+ gid) info]) ∧
    (length grp ≠ 2 →
     rows = [Integrity.ErrRow "TStats" ("gid = " +:+ gid) "Row count != 2"]).
Proof.
  unfold Integrity.inspect_gid_grp.
  destruct (bool_decide_reflect (length grp ≠ 2)) as [Hlen|Hlen].
  { eexists. split; [rewrite log_set_err_log; reflexivity|]. split; [eauto|auto]. }
  destruct grp as [|row1 [|row2 [|row3 grp]]]; try (simpl in Hlen; lia).
  cbn [Integrity.iloc lookup list_lookup not_none]. rewrite !bind_Return.
  repeat match goal with
  | |- context [if ?b then _ else _] =>
      destruct b;
      [eexists; split; [rewrite log_set_err_log; reflexivity|];
       split; [eauto|intros H; exfalso; apply H; reflexivity]|]
  end.
  exists []. split; [by rewrite set_err_log_same|].
  split; [by left|intros H; exfalso; apply H; reflexivity].
Qed.

Ltac bool_facts :=
  repeat match goal with
  | H : bool_decide _ = true |- _ => apply bool_decide_eq_true in H
  | H : bool_decide _ = false |- _ => apply bool_decide_eq_false in H
  | H : ¬ (_ ≠ _) |- _ => apply dec_stable in H
  | H : _ || _ = true |- _ => apply orb_true_iff in H as [H|H]
  | H : _ || _ = false |- _ => apply orb_false_iff in H as [? ?]
  | H : _ && _ = true |- _ => apply andb_true_iff in H as [? ?]
  | H : _ && _ = false |- _ => apply andb_false_iff in H as [H|H]
  | H : negb _ = true |- _ => apply negb_true_iff in H
  | H : negb _ = false |- _ => apply negb_false_iff in H
  | H : (_ <? _)%Z = true |- _ => apply Z.ltb_lt in H
  | H : (_ <? _)%Z = false |- _ => apply Z.ltb_ge in H
  end.

(** X18: the two rows of a game pass [__inspect_gid_grp] with the error
    log unchanged exactly when all seven invariants hold: same date, each
    team the other's opponent, exactly one home row, equal overtime
    counts, spreads that are negations of each other and at most 25 in
    magnitude, and equal total points between 150 and 250. *)
Theorem inspect_gid_grp_passes (self : Integrity.t) (row1 row2 : Integrity.tstats_row)
    (gid : string) :
  ∃ self',
    Integrity.inspect_gid_grp self [row1; row2] gid = Return self' ∧
    (Integrity.err_log self' = Integrity.err_log self ↔
     Integrity.t_gd row1 = Integrity.t_gd row2 ∧
     Integrity.t_team row1 = Integrity.t_opp row2 ∧
     Integrity.t_opp row1 = Integrity.t_team row2 ∧
     Integrity.t_home row1 = negb (Integrity.t_home row2) ∧
     Integrity.t_ot row1 = Integrity.t_ot row2 ∧
     (Integrity.t_open_spread row1 = - Integrity.t_open_spread row2)%Z ∧
     (Z.abs (Integrity.t_open_spread row1) ≤ 25)%Z ∧
     Integrity.t_open_pts row1 = Integrity.t_open_pts row2 ∧
     (150 ≤ Integrity.t_open_pts row1 ≤ 250)%Z).
Proof.
  assert (Hlogged : ∀ info,
    Integrity.err_log (Integrity.log self "TStats" info ("gid = " +:+ gid))
    ≠ Integrity.err_log self).
  { intros info Heq. apply (f_equal length) in Heq. simpl in Heq.
    rewrite length_app in Heq. simpl in Heq. lia. }
  unfold Integrity.inspect_gid_grp.
  rewrite bool_decide_eq_false_2 by (simpl; intros H; by apply H).
  cbn [Integrity.iloc lookup list_lookup not_none]. rewrite !bind_Return.
  unfold Integrity.MAX_OPEN_SPREAD, Integrity.MAX_OPEN_PTS, Integrity.MIN_OPEN_PTS.
  repeat match goal with
  | |- context [if ?b then _ else _] => destruct b eqn:?
  end;
  (eexists; split; [reflexivity|]);
  bool_facts;
  (split; [intros Hsame; try (by apply Hlogged in Hsame)|intros Hinv]);
  destruct (Integrity.t_home row1), (Integrity.t_home row2);
  intuition (try congruence; try lia).
Qed.

Lemma set_err_log_id (self : Integrity.t) :
  Integrity.set_err_log self (Integrity.err_log self) = self.
Proof. by destruct self. Qed.

(** A loop whose body only appends rows to the error log. *)
Lemma for_each_logs {A : Type} (self : Integrity.t) (body : Integrity.t → A → result Integrity.t)
    (Q : A → list Integrity.err_row → Prop) (items : list A) :
  (∀ x l, x ∈ items →
     ∃ rows, body (Integrity.set_err_log self l) x =
               Return (Integrity.set_err_log self (l ++ rows)) ∧ Q x rows) →
  ∀ l, ∃ rowss,
    Integrity.for_each (Integrity.set_err_log self l) items body =
      Return (Integrity.set_err_log self (l ++ concat rowss)) ∧
    Forall2 Q items rowss.
Proof.
  induction items as [|x items IH]; intros Hbody l.
  - exists []. split; [by rewrite app_nil_r|constructor].
  - destruct (Hbody x l (list_elem_of_here _ _)) as (rows & Hx & HQ).
    destruct (IH (fun y l' Hy => Hbody y l' (list_elem_of_further _ _ _ Hy)) (l ++ rows))
      as (rowss & Hrest & HQs).
    exists (rows :: rowss). split; [|by constructor].
    rewrite for_each_cons, Hx, bind_Return, Hrest. simpl. by rewrite app_assoc.
Qed.

Lemma inspect_gid_grp_logs (self : Integrity.t) (l : list Integrity.err_row)
    (grp : list Integrity.tstats_row) (gid : string) :
  ∃ rows,
    Integrity.inspect_gid_grp (Integrity.set_err_log self l) grp gid =
      Return (Integrity.set_err_log self (l ++ rows)) ∧
    (rows = [] ∨ ∃ info, rows = [Integrity.ErrRow "TStats" ("gid = " +:+ gid) info]).
Proof.
  unfold Integrity.inspect_gid_grp.
  destruct (bool_decide_reflect (length grp ≠ 2)) as [Hlen|Hlen].
  { eexists. split; [rewrite log_set_err_log; reflexivity|eauto]. }
  destruct grp as [|row1 [|row2 [|row3 grp]]]; try (simpl in Hlen; lia).
  cbn [Integrity.iloc lookup list_lookup not_none]. rewrite !bind_Return.
  repeat match goal with
  | |- context [if ?b then _ else _] =>
      destruct b; [eexists; split; [rewrite log_set_err_log; reflexivity|eauto]|]
  end.
  exists []. split; [by rewrite app_nil_r|by left].
Qed.

Section GroupbyFacts.
Context {R K : Type} `{EqDecision K} (le : K → K → bool) (key : R → K).

Lemma groupby_keys (rows : list R) :
  (Integrity.groupby le key rows).*1 = sort_stable le (unique (map key rows)).
Proof.
  unfold Integrity.groupby.
  induction (sort_stable le (unique (map key rows))) as [|k ks IH]; [reflexivity|].
  simpl. f_equal. exact IH.
Qed.

Lemma NoDup_groupby_keys (rows : list R) : NoDup (Integrity.groupby le key rows).*1.
Proof. rewrite groupby_keys, sort_stable_perm. apply NoDup_unique. Qed.

Lemma elem_of_groupby (rows : list R) (k : K) (grp : list R) :
  (k, grp) ∈ Integrity.groupby le key rows →
  grp = filter (fun r => key r = k) rows ∧ ∃ r, r ∈ rows ∧ key r = k.
Proof.
  unfold Integrity.groupby. intros Hin.
  apply list_elem_of_fmap in Hin as (k' & [= -> ->] & Hk).
  split; [reflexivity|].
  apply elem_of_sort_stable, elem_of_unique, list_elem_of_fmap in Hk as (r & -> & Hr).
  eauto.
Qed.
End GroupbyFacts.

Lemma gid_id_inj (a b : string) : "gid = " +:+ a = "gid = " +:+ b → a = b.
Proof. intros H. by injection H. Qed.

Section GameRows.
Context {G : Type}.

Let Q (item : string * G) (rows : list Integrity.err_row) : Prop :=
  rows = [] ∨ ∃ info, rows = [Integrity.ErrRow "TStats" ("gid = " +:+ item.1) info].

Lemma game_rows_ids (items : list (string * G)) (rowss : list (list Integrity.err_row)) :
  Forall2 Q items rowss →
  ∀ row, row ∈ concat rowss →
    Integrity.table row = "TStats" ∧
    ∃ item, item ∈ items ∧ Integrity.id row = "gid = " +:+ item.1.
Proof.
  induction 1 as [|item rows items rowss Hrows HQ IH]; intros row Hrow.
  - by apply elem_of_nil in Hrow.
  - simpl in Hrow. apply elem_of_app in Hrow as [Hrow|Hrow].
    + destruct Hrows as [->|[info ->]]; [by apply elem_of_nil in Hrow|].
      apply list_elem_of_singleton in Hrow as ->. split; [reflexivity|].
      exists item. split; [apply list_elem_of_here|reflexivity].
    + destruct (IH row Hrow) as [Htable (item' & Hitem' & Hid)].
      split; [exact Htable|]. exists item'. split; [by apply list_elem_of_further|exact Hid].
Qed.

Lemma game_rows_NoDup (items : list (string * G)) (rowss : list (list Integrity.err_row)) :
  NoDup items.*1 → Forall2 Q items rowss → NoDup (Integrity.id <$> concat rowss).
Proof.
  intros Hnodup HQ. induction HQ as [|item rows items rowss Hrows HQ IH]; [constructor|].
  rewrite fmap_cons in Hnodup. apply NoDup_cons in Hnodup as [Hfresh Hnodup].
  simpl. rewrite fmap_app. apply NoDup_app. split; [|split; [|by apply IH]].
  - destruct Hrows as [->|[info ->]]; [constructor|apply NoDup_singleton].
  - intros i Hi Hi'.
    destruct Hrows as [->|[info ->]]; [by apply elem_of_nil in Hi|].
    apply list_elem_of_singleton in Hi as ->.
    apply list_elem_of_fmap in Hi' as (row & Hid & Hrow).
    destruct (game_rows_ids items rowss HQ row Hrow) as [_ (item' & Hitem' & Hid')].
    simpl in Hid. rewrite Hid' in Hid. apply gid_id_inj in Hid.
    apply Hfresh. rewrite Hid. apply list_elem_of_fmap. eauto.
Qed.
End GameRows.

(** X19: [inspect_tstats] never raises and only appends to the error log:
    every row it adds is a ['TStats'] row whose id names the game
    identifier of some team-stats row, and no two of them name the same
    game, each game getting at most one row. *)
Theorem inspect_tstats_total (self : Integrity.t) :
  ∃ rows,
    Integrity.inspect_tstats self =
      Return (Integrity.set_err_log self (Integrity.err_log self ++ rows)) ∧
    (∀ row, row ∈ rows →
       Integrity.table row = "TStats" ∧
       ∃ r, r ∈ Integrity.tstats self ∧ Integrity.id row = "gid = " +:+ Integrity.t_gid r) ∧
    NoDup (Integrity.id <$> rows).
Proof.
  unfold Integrity.inspect_tstats.
  set (groups := Integrity.groupby String.leb Integrity.t_gid (Integrity.tstats self)).
  destruct (for_each_logs self
              (fun self '(gid, grp) => Integrity.inspect_gid_grp self grp gid)
              (fun item rows =>
                 rows = [] ∨ ∃ info, rows = [Integrity.ErrRow "TStats" ("gid = " +:+ item.1) info])
              groups) with (l := Integrity.err_log self) as (rowss & Hrun & HQ).
  { intros [gid grp] l _. apply inspect_gid_grp_logs. }
  rewrite set_err_log_id in Hrun. exists (concat rowss). split; [exact Hrun|]. split.
  - intros row Hrow.
    destruct (game_rows_ids groups rowss HQ row Hrow) as [Htable ([gid grp] & Hitem & Hid)].
    split; [exact Htable|].
    apply elem_of_groupby in Hitem as [_ (r & Hr & Hgid)].
    exists r. split; [exact Hr|]. simpl in Hid. by rewrite Hgid.
  - apply (game_rows_NoDup groups rowss); [|exact HQ].
    apply NoDup_groupby_keys.
Qed.

(** ** [DBIntegrityCheck]: the name tables *)

Lemma is_problematic_returns (self : NameConverter.t) (name : string) :
  ∃ problematic info,
    NameConverter.is_problematic self name = (self, Return (problematic, info)) ∧
    (problematic = true ↔
     is_Some (NameConverter.known_pairs self !! name) ∨
     ((name ∉ NameConverter.known_missing self) ∧ (name ∉ NameConverter.known self))).
Proof.
  unfold NameConverter.is_problematic.
  destruct (NameConverter.known_pairs self !! name) as [new|] eqn:Hpairs.
  { eexists _, _. split; [reflexivity|]. split; [eauto|reflexivity]. }
  destruct (bool_decide_reflect (name ∈ NameConverter.known_missing self)) as [H1|H1].
  { eexists _, _. split; [reflexivity|]. split; [discriminate|].
    intros [[x Hx]|[H _]]; [discriminate Hx|contradiction]. }
  destruct (bool_decide_reflect (name ∈ NameConverter.known self)) as [H2|H2].
  { eexists _, _. split; [reflexivity|]. split; [discriminate|].
    intros [[x Hx]|[_ H]]; [discriminate Hx|contradiction]. }
  eexists _, _. split; [reflexivity|]. split; [auto|reflexivity].
Qed.

Lemma names_loop_logs (self : Integrity.t) (table : string) (names : list string) :
  ∀ l,
    Integrity.inspect_names_in_table (Integrity.set_err_log self l) names table =
    Return (Integrity.set_err_log self
              (l ++ problem_rows (Integrity.name_converter self) table names)).
Proof.
  unfold Integrity.inspect_names_in_table.
  induction names as [|name names IH]; intros l.
  - simpl. by rewrite app_nil_r.
  - rewrite for_each_cons. cbn [Integrity.name_converter Integrity.set_err_log].
    unfold problem_rows. cbn [omap list_omap]. fold (problem_rows (Integrity.name_converter self) table names).
    destruct (is_problematic_returns (Integrity.name_converter self) name)
      as (problematic & info & Hp & _).
    rewrite Hp. cbn [snd].
    assert (Hconv : Integrity.set_name_converter (Integrity.set_err_log self l)
                      (Integrity.name_converter self) = Integrity.set_err_log self l)
      by (by destruct self).
    rewrite Hconv, bind_Return.
    destruct problematic.
    + rewrite bind_Return, log_set_err_log.
      cbn [Integrity.err_log Integrity.set_err_log].
      change (Integrity.set_err_log (Integrity.set_err_log self l)
                (l ++ [Integrity.ErrRow table name info]))
        with (Integrity.set_err_log self (l ++ [Integrity.ErrRow table name info])).
      rewrite IH. simpl. by rewrite <- app_assoc.
    + rewrite bind_Return, IH. reflexivity.
Qed.

(** X20: [inspect_inj_names] and [inspect_news_names] never raise and
    leave the converter and every table as they were; they append to the
    error log one row per problematic name of the table's unique player
    names, in order, with the table name, the name as id and the reason of
    [is_problematic]. A name is logged exactly when it has a pairing or is
    in neither the known-missing nor the known set. *)
Theorem inspect_names_logged (self : Integrity.t) :
  Integrity.inspect_inj_names self =
    Return (Integrity.set_err_log self
              (Integrity.err_log self ++
               problem_rows (Integrity.name_converter self) "injuries"
                 (unique (Integrity.inj self)))) ∧
  Integrity.inspect_news_names self =
    Return (Integrity.set_err_log self
              (Integrity.err_log self ++
               problem_rows (Integrity.name_converter self) "news"
                 (unique (Integrity.news self)))) ∧
  ∀ table names name,
    (∃ info, Integrity.ErrRow table name info
             ∈ problem_rows (Integrity.name_converter self) table names) ↔
    name ∈ names ∧
    (is_Some (NameConverter.known_pairs (Integrity.name_converter self) !! name) ∨
     ((name ∉ NameConverter.known_missing (Integrity.name_converter self)) ∧
      (name ∉ NameConverter.known (Integrity.name_converter self)))).
Proof.
  split; [|split].
  - unfold Integrity.inspect_inj_names.
    rewrite <- (set_err_log_id self) at 1. apply names_loop_logs.
  - unfold Integrity.inspect_news_names.
    rewrite <- (set_err_log_id self) at 1. apply names_loop_logs.
  - intros table names name. unfold problem_rows. split.
    + intros [info Hin]. apply list_elem_of_omap in Hin as (name' & Hname' & Hrow).
      destruct (is_problematic_returns (Integrity.name_converter self) name')
        as (problematic & info' & Hp & Hiff).
      rewrite Hp in Hrow. simpl in Hrow. destruct problematic; [|discriminate].
      injection Hrow as -> ->. split; [exact Hname'|]. by apply Hiff.
    + intros [Hname Hprob].
      destruct (is_problematic_returns (Integrity.name_converter self) name)
        as (problematic & info & Hp & Hiff).
      apply Hiff in Hprob as ->. exists info.
      apply list_elem_of_omap. exists name. split; [exact Hname|]. by rewrite Hp.
Qed.

(** X21: [_names_are_equiv] does not depend on the order of its two
    names: it holds exactly when the pair, one way or the other, is one of
    the known similar pairs. *)
Theorem names_are_equiv_sym (self : Integrity.t) (a b : string) :
  Integrity.names_are_equiv self a b = Integrity.names_are_equiv self b a ∧
  (Integrity.names_are_equiv self a b = true ↔
   (a, b) ∈ Integrity.known_sim_names self ∨ (b, a) ∈ Integrity.known_sim_names self).
Proof.
  split; [|apply names_are_equiv_spec].
  apply eq_true_iff_eq. rewrite !names_are_equiv_spec. tauto.
Qed.

(** ** [DBIntegrityCheck]: the player-group checklist and [run] *)

Lemma length_one_inv {A : Type} (l : list A) : length l = 1 → ∃ x, l = [x].
Proof. destruct l as [|x [|y l]]; try discriminate. eauto. Qed.

(** The two outcomes of [__inspect_team_gd_group]: at most one row
    appended, or [IndexError] because the opponent has no row on that
    date. *)
Lemma inspect_team_gd_group_cases (self : Integrity.t) (l : list Integrity.err_row)
    (grp : list Integrity.pstats_row) (gd : Integrity.date) (team : string) :
  (∃ rows,
     Integrity.inspect_team_gd_group (Integrity.set_err_log self l) grp gd team =
       Return (Integrity.set_err_log self (l ++ rows)) ∧
     (rows = [] ∨
      ∃ tbl info,
        rows = [Integrity.ErrRow tbl
                  ("gd/team grp (" +:+ Integrity.strftime_Ymd gd +:+ "/" +:+ team +:+ ")")
                  info])) ∨
  (Integrity.inspect_team_gd_group (Integrity.set_err_log self l) grp gd team =
     Raise IndexError ∧
   ∃ opp, unique (map Integrity.p_opp grp) = [opp] ∧
          filter (fun r => Integrity.p_team r = opp ∧ Integrity.p_gd r = gd)
                 (Integrity.pstats self) = []).
Proof.
  unfold Integrity.inspect_team_gd_group.
  cbn [Integrity.pstats Integrity.tstats Integrity.set_err_log].
  destruct (length grp <? 7)%nat.
  { left. eexists. split; [rewrite log_set_err_log; reflexivity|eauto]. }
  destruct (bool_decide (length (filter _ grp) ≠ 5)).
  { left. eexists. split; [rewrite log_set_err_log; reflexivity|eauto]. }
  destruct (bool_decide_reflect (length (unique (map Integrity.p_gid grp)) ≠ 1)) as [|Hgids].
  { left. eexists. split; [rewrite log_set_err_log; reflexivity|eauto]. }
  destruct (bool_decide_reflect (length (unique (map Integrity.p_opp grp)) ≠ 1)) as [|Hopps].
  { left. eexists. split; [rewrite log_set_err_log; reflexivity|eauto]. }
  apply dec_stable, length_one_inv in Hgids as [gid0 Hgids].
  apply dec_stable, length_one_inv in Hopps as [opp0 Hopps].
  rewrite Hgids, Hopps. cbn [item0]. rewrite !bind_Return.
  destruct (unique (map Integrity.p_gid (filter _ (Integrity.pstats self))))
    as [|opp_gid0 opp_gids] eqn:Hopp_gids.
  { right. split; [reflexivity|]. exists opp0. split; [reflexivity|].
    apply unique_nil_inv in Hopp_gids. by apply map_eq_nil in Hopp_gids. }
  left. cbn [item0]. rewrite bind_Return.
  destruct (bool_decide (gid0 ≠ opp_gid0)).
  { eexists. split; [rewrite log_set_err_log; reflexivity|eauto]. }
  destruct (bool_decide_reflect (length (unique (map Integrity.p_tsid grp)) ≠ 1)) as [|Htsids].
  { eexists. split; [rewrite log_set_err_log; reflexivity|eauto]. }
  apply dec_stable, length_one_inv in Htsids as [tsid0 Htsids].
  rewrite Htsids. cbn [item0]. rewrite bind_Return.
  destruct (bool_decide_reflect
              (length (filter (fun r => Integrity.t_id r = tsid0) (Integrity.tstats self)) ≠ 1))
    as [|Htrow].
  { eexists. split; [rewrite log_set_err_log; reflexivity|eauto]. }
  apply dec_stable, length_one_inv in Htrow as [trow0 Htrow].
  rewrite Htrow. cbn [Integrity.iloc lookup list_lookup not_none]. rewrite bind_Return.
  repeat match goal with
  | |- context [if ?b then _ else _] =>
      destruct b; [eexists; split; [rewrite log_set_err_log; reflexivity|eauto]|]
  end.
  exists []. split; [by rewrite app_nil_r|by left].
Qed.

(** X22: [__inspect_team_gd_group] either appends at most one row to the
    error log, with the group's id, and changes nothing else, or raises
    [IndexError]; it raises only when the group has one opponent and the
    player table holds no row of that opponent on the group's date. *)
Theorem inspect_team_gd_group_outcomes (self : Integrity.t)
    (grp : list Integrity.pstats_row) (gd : Integrity.date) (team : string) :
  (∃ rows,
     Integrity.inspect_team_gd_group self grp gd team =
       Return (Integrity.set_err_log self (Integrity.err_log self ++ rows)) ∧
     (rows = [] ∨
      ∃ tbl info,
        rows = [Integrity.ErrRow tbl
                  ("gd/team grp (" +:+ Integrity.strftime_Ymd gd +:+ "/" +:+ team +:+ ")")
                  info])) ∨
  (Integrity.inspect_team_gd_group self grp gd team = Raise IndexError ∧
   ∃ opp, unique (map Integrity.p_opp grp) = [opp] ∧
          ∀ r, r ∈ Integrity.pstats self →
               ¬ (Integrity.p_team r = opp ∧ Integrity.p_gd r = gd)).
Proof.
  destruct (inspect_team_gd_group_cases self (Integrity.err_log self) grp gd team)
    as [Hok|(Hraise & opp & Hopps & Hempty)]; rewrite set_err_log_id in *; [by left|right].
  split; [exact Hraise|]. exists opp. split; [exact Hopps|]. intros r Hr Hmatch.
  assert (Hin : r ∈ filter (fun r => Integrity.p_team r = opp ∧ Integrity.p_gd r = gd)
                       (Integrity.pstats self)) by (by apply list_elem_of_filter).
  rewrite Hempty in Hin. by apply elem_of_nil in Hin.
Qed.






(** ** [data_utils.py]: comparing sequences *)

Lemma list_to_set_disj_eq_perm (a b : list string) :
  (list_to_set_disj a : gmultiset string) = list_to_set_disj b ↔ a ≡ₚ b.
Proof.
  split; [|by intros ->].
  revert b. induction a as [|x a IH]; intros b Heq.
  - destruct b as [|y b]; [reflexivity|].
    assert (Hy : y ∈ (list_to_set_disj (y :: b) : gmultiset string))
      by (apply elem_of_list_to_set_disj, list_elem_of_here).
    rewrite <- Heq in Hy. by apply gmultiset_not_elem_of_empty in Hy.
  - assert (Hx : x ∈ b).
    { apply (elem_of_list_to_set_disj (A:=string)). rewrite <- Heq.
      apply elem_of_list_to_set_disj, list_elem_of_here. }
    apply elem_of_Permutation in Hx as [b' Hb]. rewrite Hb.
    constructor. apply IH.
    rewrite Hb in Heq. rewrite !list_to_set_disj_cons in Heq.
    by apply (inj (disj_union _)) in Heq.
Qed.


(** X25: [dicts_equal] holds exactly when the two dictionaries are the
    same mapping: same keys and, key by key, the same values. *)
Theorem dicts_equal_eq {V : Type} `{EqDecision V} (a b : gmap string V) :
  DataUtils.dicts_equal a b = true ↔ a = b.
Proof.
  unfold DataUtils.dicts_equal. split.
  - destruct (DataUtils.sequences_equal _ _ false) eqn:Hkeys; [|discriminate].
    simpl. intros Hvals. apply map_eq. intros key.
    unfold DataUtils.sequences_equal in Hkeys.
    apply bool_decide_eq_true, list_to_set_disj_eq_perm in Hkeys.
    rewrite forallb_forall in Hvals.
    destruct (decide (key ∈ dom a)) as [Hin|Hnot].
    + apply (bool_decide_eq_true_1 (a !! key = b !! key)), Hvals.
      by apply list_elem_of_In, elem_of_elements.
    + assert (Hnot' : key ∉ dom b).
      { intros Hin. apply Hnot, elem_of_elements. rewrite Hkeys.
        by apply elem_of_elements. }
      apply not_elem_of_dom in Hnot, Hnot'. congruence.
  - intros <-.
    assert (Hkeys : DataUtils.sequences_equal (elements (dom a)) (elements (dom a)) false = true)
      by (unfold DataUtils.sequences_equal; by apply bool_decide_eq_true).
    rewrite Hkeys. simpl. apply forallb_forall. intros key _. by apply bool_decide_eq_true.
Qed.

(** X26: [contains_elements(a, b)] holds exactly when every element of
    [b] occurs in [a], whatever the order and the repetitions. *)
Theorem contains_elements_subset (a b : list string) :
  DataUtils.contains_elements a b = true ↔ ∀ x, x ∈ b → x ∈ a.
Proof.
  unfold DataUtils.contains_elements. rewrite bool_decide_eq_true.
  change (length (elements (list_to_set a ∩ list_to_set b : gset string)))
    with (size (list_to_set a ∩ list_to_set b : gset string)).
  split.
  - intros Hsize x Hx.
    assert (Heq : (list_to_set a ∩ list_to_set b : gset string) ≡ list_to_set b).
    { apply set_subseteq_size_equiv; [set_solver|lia]. }
    assert (Hb : x ∈ (list_to_set b : gset string)) by (by apply elem_of_list_to_set).
    rewrite <- Heq in Hb. apply elem_of_intersection in Hb as [Ha _].
    by apply elem_of_list_to_set in Ha.
  - intros Hsub. f_equal. apply leibniz_equiv. apply set_equiv. intros x.
    rewrite elem_of_intersection, !elem_of_list_to_set. split; [tauto|auto].
Qed.

(** X27: [common_elements] raises [IndexError] on an empty list of
    sequences, and otherwise returns exactly the elements that occur in
    every sequence. *)
Theorem common_elements_all (x : list (list string)) :
  (x = [] → DataUtils.common_elements x = Raise IndexError) ∧
  (x ≠ [] →
   ∃ result, DataUtils.common_elements x = Return result ∧
             ∀ e, e ∈ result ↔ ∀ seq, seq ∈ x → e ∈ seq).
Proof.
  split; [by intros ->|]. intros Hx. destruct x as [|x0 x]; [congruence|].
  assert (Hfold : ∀ (seqs : list (list string)) (acc : gset string) e,
            e ∈ foldl (fun result seq => result ∩ list_to_set seq) acc seqs ↔
            e ∈ acc ∧ ∀ seq, seq ∈ seqs → e ∈ seq).
  { induction seqs as [|seq seqs IH]; intros acc e; simpl.
    - split; [intros H; split; [exact H|]; intros seq Hseq; by apply elem_of_nil in Hseq|tauto].
    - rewrite IH, elem_of_intersection, elem_of_list_to_set. split.
      + intros [[Hacc Hseq] Hrest]. split; [exact Hacc|].
        intros seq' Hseq'. apply elem_of_cons in Hseq' as [->|Hseq']; auto.
      + intros [Hacc Hall]. split; [split; [exact Hacc|]|].
        * apply Hall, list_elem_of_here.
        * intros seq' Hseq'. by apply Hall, list_elem_of_further. }
  unfold DataUtils.common_elements. cbn [item0]. rewrite bind_Return.
  destruct (bool_decide_reflect (length (x0 :: x) = 1)) as [Hlen|Hlen].
  - destruct x; [|discriminate Hlen]. eexists. split; [reflexivity|].
    intros e. rewrite elem_of_list_to_set. split.
    + intros He seq Hseq. by apply list_elem_of_singleton in Hseq as ->.
    + intros Hall. apply Hall, list_elem_of_here.
  - eexists. split; [reflexivity|]. intros e. cbn [drop].
    rewrite Hfold, elem_of_list_to_set. split.
    + intros [He Hall] seq Hseq. apply elem_of_cons in Hseq as [->|Hseq]; auto.
    + intros Hall. split; [apply Hall, list_elem_of_here|].
      intros seq Hseq. by apply Hall, list_elem_of_further.
Qed.

Lemma common_elements_all_witness :
  ∃ result,
    DataUtils.common_elements [["BOS"; "NYK"; "LAL"]; ["NYK"; "BOS"]; ["BOS"]] = Return result ∧
    ∀ e, e ∈ result ↔ ∀ seq, seq ∈ [["BOS"; "NYK"; "LAL"]; ["NYK"; "BOS"]; ["BOS"]] → e ∈ seq.
Proof.
  apply (common_elements_all [["BOS"; "NYK"; "LAL"]; ["NYK"; "BOS"]; ["BOS"]]). discriminate.
Defined.

(** X28: [all_elements_equal] raises [IndexError] on an empty sequence,
    and otherwise tells whether every element equals the first. *)
Theorem all_elements_equal_head (q : list string) :
  (q = [] → DataUtils.all_elements_equal q = Raise IndexError) ∧
  ∀ q0 rest, q = q0 :: rest →
    ∃ b, DataUtils.all_elements_equal q = Return b ∧ (b = true ↔ ∀ x, x ∈ rest → x = q0).
Proof.
  split; [by intros ->|]. intros q0 rest ->.
  unfold DataUtils.all_elements_equal. cbn [item0]. rewrite bind_Return.
  eexists. split; [reflexivity|]. rewrite bool_decide_eq_true.
  rewrite filter_cons_True by reflexivity. simpl. split.
  - intros Hlen x Hx.
    assert (Hall : filter (fun x => x = q0) rest = rest).
    { assert (Hle := length_filter (fun x => x = q0) rest).
      clear Hx. induction rest as [|y rest IH]; [reflexivity|].
      rewrite filter_cons in *. destruct (decide (y = q0)) as [->|Hy].
      - simpl in *. f_equal. apply IH; lia.
      - exfalso. assert (Hle' := length_filter (fun x => x = q0) rest). simpl in *. lia. }
    rewrite <- Hall in Hx. by apply list_elem_of_filter in Hx as [Hx _].
  - intros Hall. f_equal.
    induction rest as [|y rest IH]; [reflexivity|].
    rewrite filter_cons_True by (apply Hall, list_elem_of_here). simpl. f_equal.
    apply IH. intros x Hx. by apply Hall, list_elem_of_further.
Qed.

(** ** [db.py]: escaping *)

(** X29: [clean_str_for_sql] doubles every apostrophe and touches nothing
    else: the count of apostrophes doubles, every other character keeps
    its count, and escaping is injective, so two different strings never
    escape to the same text. *)
Theorem clean_str_for_sql_doubles (s : string) :
  count_char "'" (Db.clean_str_for_sql s) = 2 * count_char "'" s ∧
  (∀ c, c ≠ "'"%char → count_char c (Db.clean_str_for_sql s) = count_char c s) ∧
  (∀ t, Db.clean_str_for_sql s = Db.clean_str_for_sql t → s = t).
Proof.
  split; [|split].
  - induction s as [|c s IH]; [reflexivity|].
    cbn [Db.clean_str_for_sql count_char].
    destruct (Ascii.eqb_spec c "'") as [->|Hc]; cbn [count_char].
    + rewrite Ascii.eqb_refl, IH. lia.
    + destruct (Ascii.eqb_spec "'"%char c) as [<-|_]; [congruence|]. rewrite IH. lia.
  - intros c Hc. induction s as [|d s IH]; [reflexivity|].
    cbn [Db.clean_str_for_sql count_char].
    destruct (Ascii.eqb_spec d "'") as [->|Hd]; cbn [count_char].
    + rewrite IH. destruct (Ascii.eqb_spec c "'"); [congruence|]. lia.
    + by rewrite IH.
  - induction s as [|c s IH]; intros [|d t]; cbn [Db.clean_str_for_sql]; try reflexivity.
    + destruct (Ascii.eqb d "'"); discriminate.
    + destruct (Ascii.eqb c "'"); discriminate.
    + destruct (Ascii.eqb_spec c "'") as [->|Hc], (Ascii.eqb_spec d "'") as [->|Hd].
      * intros [= Heq]. f_equal. by apply IH.
      * intros [= <- _]. congruence.
      * intros [= -> _]. congruence.
      * intros [= -> Heq]. f_equal. by apply IH.
Qed.

(** ** [DBIntegrityCheck]: what the near-duplicate scan leaves alone *)

Lemma inspect_ref_name_frame (uniq_names : list string) (self : Integrity.t)
    (l : list Integrity.name_row) (item : nat * string) :
  ∃ rows,
    Integrity.inspect_ref_name uniq_names (Integrity.set_name_log self l) item =
    Return (Integrity.set_name_log self (l ++ rows)).
Proof.
  destruct item as [i ref_name]. unfold Integrity.inspect_ref_name.
  rewrite inner_loop_log. eauto.
Qed.

Lemma outer_loop_frame (uniq_names : list string) (self : Integrity.t)
    (items : list (nat * string)) :
  ∀ l, ∃ rows,
    Integrity.for_each (Integrity.set_name_log self l) items
      (Integrity.inspect_ref_name uniq_names) =
    Return (Integrity.set_name_log self (l ++ rows)).
Proof.
  induction items as [|item items IH]; intros l.
  - exists []. by rewrite app_nil_r.
  - destruct (inspect_ref_name_frame uniq_names self l item) as (rows & Hitem).
    destruct (IH (l ++ rows)) as (rows' & Hrest).
    exists (rows ++ rows'). rewrite for_each_cons, Hitem, bind_Return, Hrest.
    by rewrite app_assoc.
Qed.

(** X30: on a checker whose name log is empty, [inspect_pstats_names]
    never raises and changes nothing but the name log; every row it logs
    pairs two different player names of the table, at an edit distance
    below 4 that the row records, and no pair is logged in both orders. *)
Theorem inspect_pstats_names_frame (self : Integrity.t) :
  Integrity.name_log self = [] →
  ∃ rows,
    Integrity.inspect_pstats_names self = Return (Integrity.set_name_log self rows) ∧
    (∀ row, row ∈ rows →
       Integrity.name1 row ≠ Integrity.name2 row ∧
       Integrity.name1 row ∈ map Integrity.p_player (Integrity.pstats self) ∧
       Integrity.name2 row ∈ map Integrity.p_player (Integrity.pstats self) ∧
       Integrity.dist row = Nltk.edit_distance (Integrity.name2 row) (Integrity.name1 row) ∧
       (Integrity.dist row < 4)%nat) ∧
    (∀ a b d d', Integrity.NameRow a b d ∈ rows → Integrity.NameRow b a d' ∉ rows).
Proof.
  intros Hempty. unfold Integrity.inspect_pstats_names.
  set (uniq_names := unique (map Integrity.p_player (Integrity.pstats self))).
  set (items := imap (fun (i : nat) (ref_name : string) => (i, ref_name))
                     (take (length uniq_names - 1) uniq_names)).
  destruct (outer_loop_frame uniq_names self items []) as (rows & Hframe).
  assert (Hself : Integrity.set_name_log self [] = self)
    by (rewrite <- Hempty; by destruct self).
  rewrite Hself in Hframe. simpl in Hframe.
  destruct (outer_loop_log uniq_names (take (length uniq_names - 1) uniq_names) 0 self)
    as (self1 & Hrun & _ & Hlog).
  { intros i r Hi. apply lookup_take_Some in Hi as [Hi _]. exact Hi. }
  change (imap (fun i ref_name => (0 + i, ref_name)) (take (length uniq_names - 1) uniq_names))
    with items in Hrun.
  rewrite Hframe in Hrun. injection Hrun as <-.
  rewrite Hframe, bind_Return. eexists. split; [reflexivity|].
  assert (Hrows : ∀ row,
    row ∈ sort_stable (fun x y => String.leb (Integrity.name1 y) (Integrity.name1 x))
            (Integrity.name_log (Integrity.set_name_log self rows)) →
    ∃ i j a b, (i < j)%nat ∧ uniq_names !! i = Some a ∧ uniq_names !! j = Some b ∧
               row = Integrity.NameRow a b (Nltk.edit_distance b a) ∧
               (Nltk.edit_distance b a < 4)%nat).
  { intros row Hrow. rewrite elem_of_sort_stable in Hrow.
    apply Hlog in Hrow as [Hrow|(i & j & a & b & _ & Hij & Ha & Hb & -> & Hlt & _)].
    - rewrite Hempty in Hrow. by apply elem_of_nil in Hrow.
    - exists i, j, a, b. auto. }
  pose proof (NoDup_unique (map Integrity.p_player (Integrity.pstats self))) as Hnodup.
  fold uniq_names in Hnodup. split.
  - intros row Hrow. apply Hrows in Hrow as (i & j & a & b & Hij & Ha & Hb & -> & Hlt).
    simpl. split.
    { intros ->. pose proof (NoDup_lookup _ _ _ _ Hnodup Ha Hb). lia. }
    split; [apply (elem_of_unique (map Integrity.p_player (Integrity.pstats self)));
            by apply list_elem_of_lookup_2 in Ha|].
    split; [apply (elem_of_unique (map Integrity.p_player (Integrity.pstats self)));
            by apply list_elem_of_lookup_2 in Hb|].
    split; [reflexivity|exact Hlt].
  - intros a b d d' Hab Hba.
    apply Hrows in Hab as (i & j & a1 & b1 & Hij & Ha & Hb & [= -> -> _] & _).
    apply Hrows in Hba as (i' & j' & a2 & b2 & Hij' & Ha' & Hb' & [= -> -> _] & _).
    pose proof (NoDup_lookup _ _ _ _ Hnodup Ha Hb').
    pose proof (NoDup_lookup _ _ _ _ Hnodup Hb Ha'). lia.
Qed.

Lemma inspect_pstats_names_frame_witness :
  let row := Integrity.PRow (Integrity.Date 2018 1 15) "BOS" "NYK" "180115_BOS_NYK" 1 true in
  let self := Integrity.init [row "Jon Smith"; row "John Smith"; row "Jon Smith"]
                [] [] [] [] (NameConverter.init ∅ ∅ ∅ [] false true) in
  ∃ rows, Integrity.inspect_pstats_names self = Return (Integrity.set_name_log self rows).
Proof.
  intros row self.
  destruct (inspect_pstats_names_frame self eq_refl) as (rows & Hrun & _).
  exists rows. exact Hrun.
Defined.
